(** * filter_mongo_db_plugin: a shallow embedding and its properties

    The development follows [filter_mongo_db_plugin.cpp]: the document
    store as the plugin uses it, the account registry ([update_account]),
    the action decoder ([add_data]), the transaction processor
    ([_process_accepted_transaction]), plugin initialisation, and the
    producer/consumer queue ([queue], [consume_blocks]). *)

From Stdlib.Strings Require Import Byte Ascii.
From stdpp Require Import gmap strings list fin_maps numbers.

Local Open Scope Z_scope.
Local Set Warnings "-register-all".

(** ** Chain data, as the plugin reads it *)

(** An [account_name] is a 64-bit name that the plugin only ever compares
    and renders with [to_string]; the rendering is injective, so a name is
    identified with its string. *)
Definition account_name := string.
Definition action_name := string.
Definition permission_name := string.
Definition bytes := list byte.

Record permission_level := {
  actor : account_name;
  permission : permission_name }.

Record action := {
  account : account_name;
  name : action_name;
  authorization : list permission_level;
  data : bytes }.

Record transaction := { actions : list action }.

(** [chain::transaction_metadata]: the handler reads [id] and [trx]. The
    event carries no block height. *)
Record transaction_metadata := {
  id : string;
  trx : transaction }.

(** The two native payloads with a hand-known layout. Of
    [chain::newaccount] only [name] is read by the plugin besides the
    rendering of the whole value. *)
Module chain.
Record newaccount := { creator : account_name; name : account_name }.
Record setabi := { account : account_name; abi : bytes }.
End chain.

(** [chain::config::system_account_name] *)
Definition system_account_name : account_name := "eosio".

(** [filter_mongo_db_plugin_impl::newaccount], [::setabi], [::accounts_col],
    [::filter_col] *)
Definition newaccount : action_name := "newaccount".
Definition setabi : action_name := "setabi".
Definition accounts_col : string := "accounts".
Definition filter_col : string := "filter".

(** ** Documents and the store

    The store is taken to answer every call: a write is done when it is
    asked for and no call raises. Where the store reports a failed write
    the plugin only logs. *)

Inductive bson :=
| b_int32 (n : Z)
| b_bool (b : bool)
| b_utf8 (s : string)
| b_date (ms : Z)
| b_document (kvs : list (string * bson))
| b_array (xs : list bson).

(** A document under construction: [append] adds a key at the end and does
    not replace an earlier one, so order and duplicates are kept. *)
Abbreviation document := (list (string * bson)).

Definition append (d : document) (kvs : list (string * bson)) : document :=
  d ++ kvs.

Fixpoint doc_get (k : string) (d : document) : option bson :=
  match d with
  | [] => None
  | (k', v) :: d' => if decide (k = k') then Some v else doc_get k d'
  end.

Definition count_key (k : string) (d : document) : nat :=
  length (filter (λ kv, kv.1 = k) d).

(** [$set]: replace the field where it stands, or add it at the end. *)
Fixpoint doc_set (k : string) (v : bson) (d : document) : document :=
  match d with
  | [] => [(k, v)]
  | (k', v') :: d' =>
      if decide (k = k') then (k, v) :: d' else (k', v') :: doc_set k v d'
  end.

Definition apply_set (upd : document) (d : document) : document :=
  fold_left (λ acc kv, doc_set kv.1 kv.2 acc) upd d.

(** A stored document: the store gives every inserted document its own
    [_id]. *)
Record stored := { oid : N; fields : document }.

Abbreviation collection := (list stored).

Definition fresh_oid (c : collection) : N :=
  N.succ (foldr (λ s m, N.max (oid s) m) 0%N c).

Definition insert_one (c : collection) (d : document) : collection :=
  c ++ [{| oid := fresh_oid c; fields := d |}].

(** The bulk insert of a list of documents, one [insert_one] each. *)
Definition insert_many (c : collection) (ds : list document) : collection :=
  fold_left insert_one ds c.

Definition name_is (n : string) (s : stored) : bool :=
  match doc_get "name" (fields s) with
  | Some (b_utf8 m) => bool_decide (m = n)
  | _ => false
  end.

(** [find_account]: [find_one] on [{name: n}], the first match in the
    collection's order. *)
Definition find_account (accounts : collection) (n : account_name)
  : option stored :=
  List.find (name_is n) accounts.

(** [update_one] on [{_id: i}] with [{$set: upd}]: the first match only. *)
Fixpoint update_one (c : collection) (i : N) (upd : document) : collection :=
  match c with
  | [] => []
  | s :: c' =>
      if decide (oid s = i)
      then {| oid := oid s; fields := apply_set upd (fields s) |} :: c'
      else s :: update_one c' i upd
  end.

(** [mongo_conn[db_name]]: collections by name; a collection that was never
    written is empty. *)
Definition coll (db : gmap string collection) (c : string) : collection :=
  default [] (db !! c).

(** ** Exceptions

    What a handler can tell apart: an [fc::exception], a [std::exception],
    anything else. [fc::exception] is taken as a class of its own; were it
    derived from [std::exception], the handlers for the latter would take
    it too, and [add_data] would append the same field in the end. *)

Inductive exn := fc_exception | std_exception | unknown_exception.

Inductive result (A : Type) :=
| Ok (a : A)
| Throw (e : exn).
Arguments Ok {A} a.
Arguments Throw {A} e.

(** ** The collaborators

    The serialization library and the JSON/BSON conversions are not part of
    the plugin. Each is taken as it is called, with the exception it may
    raise: [fc] calls raise [fc_exception], the BSON conversion raises an
    exception derived from [std::exception]. *)
Class Collaborators := {
  abi_def : Type;
  (** [abi_def abi;] the default-constructed definition *)
  empty_abi : abi_def;
  (** [act.data_as<chain::newaccount>()] *)
  unpack_newaccount : bytes → result chain.newaccount;
  (** [act.data_as<chain::setabi>()] *)
  unpack_setabi : bytes → result chain.setabi;
  (** [fc::raw::unpack<chain::abi_def>( setabi.abi )] *)
  unpack_abi_def : bytes → result abi_def;
  (** [bsoncxx::from_json( fc::json::to_string( abi_def ))] *)
  abi_def_to_bson : abi_def → result bson;
  (** [bsoncxx::from_json( fc::json::to_string( newaccount ))] *)
  newaccount_to_bson : chain.newaccount → result bson;
  (** [fc::json::from_string( bsoncxx::to_json( view["abi"].get_document())).as<abi_def>()] *)
  abi_def_of_bson : bson → result abi_def;
  (** [abis.set_abi( abi ); abis.binary_to_variant( abis.get_action_type(
      act.name ), act.data )], rendered to JSON and to BSON *)
  binary_to_bson : abi_def → action_name → bytes → result bson;
}.

(** [fc::variant( act.data ).as_string()]: the bytes in lower-case hex. *)
Definition hex_digit (n : N) : Ascii.ascii :=
  match String.get (N.to_nat n) "0123456789abcdef" with
  | Some c => c
  | None => "0"%char
  end.

Fixpoint to_hex (bs : bytes) : string :=
  match bs with
  | [] => ""
  | b :: bs' =>
      let n := Byte.to_N b in
      String (hex_digit (n / 16)%N) (String (hex_digit (n mod 16)%N) (to_hex bs'))
  end.

(** ** The account registry: [update_account] *)

(** A computation on the accounts collection that may raise: the writes
    done before an exception stay done. *)
Definition M (A : Type) : Type := collection → collection * result A.

Definition ret {A} (a : A) : M A := λ c, (c, Ok a).

Definition bind {A B} (m : M A) (k : A → M B) : M B :=
  λ c, match m c with
       | (c', Ok a) => k a c'
       | (c', Throw e) => (c', Throw e)
       end.

Definition lift {A} (r : result A) : M A := λ c, (c, r).

(** [try { m } catch( fc::exception& ) {}] *)
Definition catch_fc (m : M unit) : M unit :=
  λ c, match m c with
       | (c', Throw fc_exception) => (c', Ok tt)
       | r => r
       end.

Notation "x ⇐ m ;; k" := (bind m (λ x, k))
  (at level 100, m at next level, right associativity).

Definition find_account_m (n : account_name) : M (option stored) :=
  λ c, (c, Ok (find_account c n)).

(** [insert_one] answers with a result or nothing; the plugin only logs the
    second. *)
Definition insert_one_m (d : document) : M unit :=
  λ c, (insert_one c d, Ok tt).

Definition update_one_m (i : N) (upd : document) : M unit :=
  λ c, (update_one c i upd, Ok tt).

Definition account_doc (n : account_name) (now : Z) : document :=
  [("name", b_utf8 n); ("createdAt", b_date now)].

Section registry.
Context `{Collaborators}.

Definition update_account (now : Z) (act : action) : M unit :=
  if decide (account act ≠ system_account_name) then ret tt else
  catch_fc (
    if decide (name act = newaccount) then
      na ⇐ lift (unpack_newaccount (data act));;
      insert_one_m (account_doc (chain.name na) now)
    else if decide (name act = setabi) then
      sa ⇐ lift (unpack_setabi (data act));;
      from_account ⇐ find_account_m (chain.account sa);;
      from_account ⇐
        match from_account with
        | Some d => ret (Some d)
        | None =>
            _ ⇐ insert_one_m (account_doc (chain.account sa) now);;
            find_account_m (chain.account sa)
        end;;
      match from_account with
      | Some d =>
          catch_fc (
            abi ⇐ lift (unpack_abi_def (chain.abi sa));;
            json ⇐ lift (abi_def_to_bson abi);;
            update_one_m (oid d) [("abi", json); ("updatedAt", b_date now)])
      | None => ret tt
      end
    else ret tt).
End registry.

(** ** The action decoder: [add_data] *)

(** How the [try] block of [add_data] is left: by [return] after a ["data"]
    field was appended, by reaching its end, or by an exception that one of
    the three handlers after it catches. The handlers only log. *)
Inductive outcome :=
| Returned (d : document)
| FellThrough
| Raised (e : exn).

Section decoder.
Context `{Collaborators}.

(** The system account's two actions with a fixed layout. [FellThrough]
    stands for control reaching the lookup of the account that follows. *)
Definition system_decode (act_doc : document) (act : action) : outcome :=
  if decide (account act = system_account_name) then
    if decide (name act = newaccount) then
      match unpack_newaccount (data act) with
      | Throw e => Raised e
      | Ok na =>
          match newaccount_to_bson na with
          | Ok value => Returned (append act_doc [("data", value)])
          | Throw _ => FellThrough
          end
      end
    else if decide (name act = setabi) then
      match unpack_setabi (data act) with
      | Throw e => Raised e
      | Ok sa =>
          match unpack_abi_def (chain.abi sa) with
          | Throw fc_exception => FellThrough
          | Throw e => Raised e
          | Ok abi =>
              match abi_def_to_bson abi with
              | Ok json =>
                  Returned (append act_doc
                    [("data", b_document [("account", b_utf8 (chain.account sa));
                                          ("abi_def", json)])])
              | Throw fc_exception => FellThrough
              | Throw e => Raised e
              end
          end
      end
    else FellThrough
  else FellThrough.

(** The decode with the schema stored for the action's account. *)
Definition schema_decode (act_doc : document) (accounts : collection)
    (act : action) : outcome :=
  match find_account accounts (account act) with
  | None => FellThrough
  | Some from_account =>
      let abi :=
        match doc_get "abi" (fields from_account) with
        | Some v =>
            match abi_def_of_bson v with
            | Ok a => a
            | Throw _ => empty_abi
            end
        | None => empty_abi
        end in
      match binary_to_bson abi (name act) (data act) with
      | Ok value => Returned (append act_doc [("data", value)])
      | Throw std_exception => FellThrough
      | Throw e => Raised e
      end
  end.

Definition add_data_try (act_doc : document) (accounts : collection)
    (act : action) : outcome :=
  match system_decode act_doc act with
  | FellThrough => schema_decode act_doc accounts act
  | o => o
  end.

Definition hex_field (act : action) : string * bson :=
  ("hex_data", b_utf8 (to_hex (data act))).

Definition add_data (act_doc : document) (accounts : collection)
    (act : action) : document :=
  match add_data_try act_doc accounts act with
  | Returned d => d
  | FellThrough | Raised _ => append act_doc [hex_field act]
  end.
End decoder.

(** ** The plugin object *)

Record filter_mongo_db_plugin_impl := {
  configured : bool;
  wipe_database_on_startup : bool;
  start_block_num : N;
  start_block_reached : bool;
  filter_contract : list string;
  mongo_conn : gmap string collection;
  queue_size : N;
  transaction_metadata_queue : list transaction_metadata;
  transaction_metadata_process_queue : list transaction_metadata;
  done : bool;
  startup : bool }.

(** The member initialisers of the class. *)
Definition new_impl : filter_mongo_db_plugin_impl :=
  {| configured := false; wipe_database_on_startup := false;
     start_block_num := 0; start_block_reached := false;
     filter_contract := []; mongo_conn := ∅; queue_size := 0;
     transaction_metadata_queue := [];
     transaction_metadata_process_queue := [];
     done := false; startup := true |}.

Definition set_mongo_conn (c : gmap string collection)
    (p : filter_mongo_db_plugin_impl) : filter_mongo_db_plugin_impl :=
  {| configured := configured p;
     wipe_database_on_startup := wipe_database_on_startup p;
     start_block_num := start_block_num p;
     start_block_reached := start_block_reached p;
     filter_contract := filter_contract p; mongo_conn := c;
     queue_size := queue_size p;
     transaction_metadata_queue := transaction_metadata_queue p;
     transaction_metadata_process_queue := transaction_metadata_process_queue p;
     done := done p; startup := startup p |}.

Definition set_queues (q pq : list transaction_metadata)
    (p : filter_mongo_db_plugin_impl) : filter_mongo_db_plugin_impl :=
  {| configured := configured p;
     wipe_database_on_startup := wipe_database_on_startup p;
     start_block_num := start_block_num p;
     start_block_reached := start_block_reached p;
     filter_contract := filter_contract p; mongo_conn := mongo_conn p;
     queue_size := queue_size p;
     transaction_metadata_queue := q;
     transaction_metadata_process_queue := pq;
     done := done p; startup := startup p |}.

Definition set_flags (d s : bool)
    (p : filter_mongo_db_plugin_impl) : filter_mongo_db_plugin_impl :=
  {| configured := configured p;
     wipe_database_on_startup := wipe_database_on_startup p;
     start_block_num := start_block_num p;
     start_block_reached := start_block_reached p;
     filter_contract := filter_contract p; mongo_conn := mongo_conn p;
     queue_size := queue_size p;
     transaction_metadata_queue := transaction_metadata_queue p;
     transaction_metadata_process_queue := transaction_metadata_process_queue p;
     done := d; startup := s |}.

(** ** The transaction processor *)

(** [++act_num] on an [int32_t]. *)
Definition incr_int32 (n : Z) : Z := (n + 1 + 2 ^ 31) mod 2 ^ 32 - 2 ^ 31.

(** The fields [process_action] writes before the payload. *)
Definition action_header (act_num : Z) (trx_id_str : string) (cfa : bool)
    (act : action) : document :=
  [("action_num", b_int32 act_num); ("trx_id", b_utf8 trx_id_str);
   ("cfa", b_bool cfa);
   ("account", b_utf8 (account act));
   ("name", b_utf8 (name act));
   ("authorization",
     b_array (map (λ auth, b_document [("actor", b_utf8 (actor auth));
                                       ("permission", b_utf8 (permission auth))])
                  (authorization act)))].

(** What the lambda [process_action] captures by reference. *)
Record captures := {
  conn : gmap string collection;
  action_array : list bson;
  bulk_filter : list document;
  filter_to_write : bool;
  actions_to_write : bool;
  act_num : Z }.

Section processor.
Context `{Collaborators}.

(** The clock readings taken while one transaction is processed are taken
    as one value [now]. The store's writes are taken to succeed; the
    plugin only logs when they do not. *)
Definition process_action (p : filter_mongo_db_plugin_impl) (now : Z)
    (trx_id_str : string) (act : action) (cfa : bool) (st : captures)
    : captures :=
  let act_doc :=
    if start_block_reached p
    then action_header (act_num st) trx_id_str cfa act
    else [] in
  (* try { update_account } catch (...) *)
  let accounts := (update_account now act (coll (conn st) accounts_col)).1 in
  let conn' := <[accounts_col := accounts]> (conn st) in
  if start_block_reached p then
    let act_doc := add_data act_doc accounts act in
    let found := bool_decide (account act ∈ filter_contract p) in
    {| conn := conn';
       action_array := action_array st ++ [b_document act_doc];
       bulk_filter :=
         if found then bulk_filter st ++ [act_doc] else bulk_filter st;
       filter_to_write := if found then true else filter_to_write st;
       actions_to_write := true;
       act_num := incr_int32 (act_num st) |}
  else
    {| conn := conn';
       action_array := action_array st;
       bulk_filter := bulk_filter st;
       filter_to_write := filter_to_write st;
       actions_to_write := actions_to_write st;
       act_num := incr_int32 (act_num st) |}.

Definition process_actions (p : filter_mongo_db_plugin_impl) (now : Z)
    (t : transaction_metadata) : captures :=
  fold_left (λ st act, process_action p now (id t) act false st)
    (actions (trx t))
    {| conn := mongo_conn p; action_array := []; bulk_filter := [];
       filter_to_write := false; actions_to_write := false; act_num := 0 |}.

(** The local [trans_doc] when the function ends. *)
Definition trans_doc (p : filter_mongo_db_plugin_impl) (now : Z)
    (t : transaction_metadata) : document :=
  match actions (trx t) with
  | [] => []
  | _ => [("actions", b_array (action_array (process_actions p now t)))]
  end.

(** [bulk_filter.execute()] *)
Definition execute (c : gmap string collection) (bulk : list document)
  : gmap string collection :=
  <[filter_col := insert_many (coll c filter_col) bulk]> c.

Definition _process_accepted_transaction (now : Z)
    (t : transaction_metadata) (p : filter_mongo_db_plugin_impl)
    : filter_mongo_db_plugin_impl :=
  let st := process_actions p now t in
  if start_block_reached p then
    if actions_to_write st then
      if filter_to_write st
      then set_mongo_conn (execute (conn st) (bulk_filter st)) p
      else set_mongo_conn (conn st) p
    else set_mongo_conn (conn st) p
  else set_mongo_conn (conn st) p.

(** The three handlers around the call only log. *)
Definition process_accepted_transaction (now : Z)
    (t : transaction_metadata) (p : filter_mongo_db_plugin_impl)
    : filter_mongo_db_plugin_impl :=
  _process_accepted_transaction now t p.
End processor.

(** ** Initialisation *)

(** The options [plugin_initialize] reads. Those with a default value are
    always present. *)
Record variables_map := {
  filter_mongodb_uri : option string;
  replay_blockchain : bool;
  hard_replay_blockchain : bool;
  delete_all_blocks : bool;
  filter_mongodb_wipe : bool;
  filter_mongodb_queue_size : N;
  filter_mongodb_block_start : N;
  opt_filter_contract : list string }.

Definition wipe_database (p : filter_mongo_db_plugin_impl)
  : filter_mongo_db_plugin_impl :=
  set_mongo_conn (delete accounts_col (delete filter_col (mongo_conn p))) p.

Definition init (now : Z) (p : filter_mongo_db_plugin_impl)
  : filter_mongo_db_plugin_impl :=
  match coll (mongo_conn p) accounts_col with
  | [] =>
      set_mongo_conn
        (<[accounts_col := insert_one [] (account_doc system_account_name now)]>
           (mongo_conn p)) p
  | _ => p
  end.

(** [db] is the database found at the URI. A failed [FC_ASSERT] is
    rethrown. *)
Definition plugin_initialize (now : Z) (options : variables_map)
    (db : gmap string collection) (my : filter_mongo_db_plugin_impl)
  : result filter_mongo_db_plugin_impl :=
  match filter_mongodb_uri options with
  | Some _ =>
      let replay := replay_blockchain options || hard_replay_blockchain options
                    || delete_all_blocks options in
      if replay && negb (filter_mongodb_wipe options) then Throw fc_exception
      else
        let wipe := if replay then true else wipe_database_on_startup my in
        let num := filter_mongodb_block_start options in
        let my :=
          {| configured := true;
             wipe_database_on_startup := wipe;
             start_block_num := num;
             start_block_reached :=
               if decide (num = 0%N) then true else start_block_reached my;
             filter_contract :=
               match opt_filter_contract options with
               | [] => filter_contract my
               | l => l
               end;
             mongo_conn := db;
             queue_size := filter_mongodb_queue_size options;
             transaction_metadata_queue := transaction_metadata_queue my;
             transaction_metadata_process_queue :=
               transaction_metadata_process_queue my;
             done := done my; startup := startup my |} in
        let my := if wipe then wipe_database my else my in
        Ok (init now my)
  | None => Ok my
  end.

(** ** The queue between the two threads *)

(** [queue.size()] is read under the lock for the test ([locked]) and again
    after the lock is released ([unlocked]), where the consumer may already
    have taken the queue away. [sleep_time] and [last_queue_size] are locals
    of the call. The result is the time slept, if the call blocked. *)
Definition queue_sleep (queue_size : N) (locked unlocked : nat) : option Z :=
  let sleep_time := 100 in
  let last_queue_size := 0%nat in
  if bool_decide (N.to_nat queue_size < locked)%nat then
    Some (if bool_decide (last_queue_size < unlocked)%nat
          then sleep_time + 100
          else
            let sleep_time := sleep_time - 100 in
            if bool_decide (sleep_time < 0) then 100 else sleep_time)
  else None.

(** [queue] with no other thread running between its two critical
    sections. *)
Definition queue {Entry : Type} (q : list Entry) (e : Entry) (queue_size : N)
  : option Z * list Entry :=
  (queue_sleep queue_size (length q) (length q), q ++ [e]).

Inductive log_entry :=
| wlog_queue_size (q : nat)
| ilog_draining_queue (q : nat)
| ilog_shutdown_gracefully
| ilog_shutdown_in_process.

(** Where the consumer thread stands: not yet created; created by
    [plugin_startup] and not yet running (the thread's function reads the
    plugin's pointer [my] when it first runs); at the top of the loop of
    [consume_blocks], at its wait; between the test of the wait (lines
    150-151), which found nothing to do, and the call of [condition.wait]
    (line 152); in a wait that the shutdown signal has passed by; after the
    capture with the lock released; in the processing loop; past the loop;
    or dead, having read an empty [my]. *)
Inductive consumer_pc :=
| not_started
| created
| at_wait
| entering_wait
| missed
| captured (transaction_metadata_size : nat)
| processing (transaction_metadata_size : nat)
| exited
| crashed.

#[global] Instance consumer_pc_eq_dec : EqDecision consumer_pc.
Proof. solve_decision. Defined.

(** The plugin with its consumer thread. [my] is the object that the
    plugin's pointer [my] owns; [my_reset] says that [plugin_shutdown] has
    released the connection and emptied the pointer. [processed] and
    [submitted] are ghost traces: the events given to
    [process_accepted_transaction] and the events given to
    [accepted_transaction], each in order. *)
Record system := {
  my : filter_mongo_db_plugin_impl;
  pc : consumer_pc;
  log : list log_entry;
  processed : list transaction_metadata;
  submitted : list transaction_metadata;
  my_reset : bool }.

(** [transaction_metadata_size > (queue_size * 0.75)]: both sides are exact
    in double precision for a 32-bit [queue_size] and a size below 2^53, so
    the test is the one on the exact values. *)
Definition above_three_quarters (size : nat) (queue_size : N) : bool :=
  bool_decide (3 * Z.of_N queue_size < 4 * Z.of_nat size).

Definition set_pc (at_ : consumer_pc) (s : system) : system :=
  {| my := my s; pc := at_; log := log s;
     processed := processed s; submitted := submitted s;
     my_reset := my_reset s |}.

Section worker.
Context `{Collaborators}.

(** [accepted_transaction]; the call of [queue] leaves the event at the
    end of the queue, after its wait if any. *)
Definition accepted_transaction (now : Z) (t : transaction_metadata)
    (s : system) : system :=
  if startup (my s) then
    {| my := process_accepted_transaction now t (my s);
       pc := pc s; log := log s;
       processed := processed s ++ [t];
       submitted := submitted s ++ [t];
       my_reset := my_reset s |}
  else
    {| my := set_queues
               (queue (transaction_metadata_queue (my s)) t
                  (queue_size (my s))).2
               (transaction_metadata_process_queue (my s)) (my s);
       pc := pc s; log := log s;
       processed := processed s;
       submitted := submitted s ++ [t];
       my_reset := my_reset s |}.

(** [plugin_startup], line 635: the thread is created; it has not run. *)
Definition create_thread (s : system) : system := set_pc created s.

(** [plugin_startup], line 637. *)
Definition clear_startup (s : system) : system :=
  {| my := set_flags (done (my s)) false (my s);
     pc := pc s; log := log s;
     processed := processed s; submitted := submitted s;
     my_reset := my_reset s |}.

(** [plugin_startup]: the two, with nothing in between. *)
Definition plugin_startup (s : system) : system :=
  if configured (my s) then clear_startup (create_thread s) else s.

(** [plugin_shutdown] up to the destructor: the connection is released and
    [my.reset()] empties the pointer before the object is destroyed. *)
Definition reset_my (s : system) : system :=
  {| my := my s; pc := pc s; log := log s;
     processed := processed s; submitted := submitted s;
     my_reset := true |}.

(** The destructor up to [consume_thread.join()]: [done] is set and the
    condition is notified, without the lock. *)
Definition signal_shutdown (s : system) : system :=
  if startup (my s) then s
  else
    {| my := set_flags true (startup (my s)) (my s);
       pc := pc s; log := log s ++ [ilog_shutdown_in_process];
       processed := processed s; submitted := submitted s;
       my_reset := my_reset s |}.

(** [plugin_shutdown]: the two, with nothing in between. *)
Definition plugin_shutdown (s : system) : system :=
  signal_shutdown (reset_my s).

(** One step of the consumer thread; [None] when it is blocked on the
    condition, not created, dead, or has returned. At [at_wait] with
    nothing to do the test and the wait are one step here: the consumer
    is blocked and a later signal finds it. The mutex makes the two one
    for [queue], which appends under it; it does not for the destructor,
    which sets [done] without it: the schedule that parts the test from
    the wait is [step_preempted] below, and [entering_wait] is the
    consumer in between. *)
Definition consumer_step (now : Z) (s : system) : option system :=
  let p := my s in
  match pc s with
  | not_started | exited | missed | crashed => None
  | created =>
      (* [my->consume_blocks()] *)
      if my_reset s then Some (set_pc crashed s) else Some (set_pc at_wait s)
  | entering_wait =>
      (* [condition.wait(lock)], after a test that found nothing to do *)
      if done p then Some (set_pc missed s) else Some (set_pc at_wait s)
  | at_wait =>
      match transaction_metadata_queue p with
      | [] =>
          if done p then
            Some {| my := p; pc := captured 0; log := log s;
                    processed := processed s; submitted := submitted s;
                    my_reset := my_reset s |}
          else None
      | q =>
          Some {| my := set_queues [] q p; pc := captured (length q);
                  log := log s;
                  processed := processed s; submitted := submitted s;
                  my_reset := my_reset s |}
      end
  | captured size =>
      let entries :=
        if above_three_quarters size (queue_size p)
        then [wlog_queue_size size]
        else if done p then [ilog_draining_queue size] else [] in
      Some {| my := p; pc := processing size; log := log s ++ entries;
              processed := processed s; submitted := submitted s;
              my_reset := my_reset s |}
  | processing size =>
      match transaction_metadata_process_queue p with
      | t :: rest =>
          Some {| my := set_queues (transaction_metadata_queue p) rest
                          (process_accepted_transaction now t p);
                  pc := processing size; log := log s;
                  processed := processed s ++ [t];
                  submitted := submitted s;
                  my_reset := my_reset s |}
      | [] =>
          if bool_decide (size = 0%nat) && done p then
            Some {| my := p; pc := exited;
                    log := log s ++ [ilog_shutdown_gracefully];
                    processed := processed s; submitted := submitted s;
                    my_reset := my_reset s |}
          else
            Some {| my := p; pc := at_wait; log := log s;
                    processed := processed s; submitted := submitted s;
                    my_reset := my_reset s |}
      end
  end.

(** The steps of the whole.
    - The chain delivers an event: not once [plugin_shutdown] has released
      the connection, and, where the event goes to the queue, not while the
      consumer holds the lock between its test and its wait.
    - [plugin_startup], statement by statement: the consumer may run
      between the two.
    - [plugin_shutdown], which the application calls after [plugin_startup]
      has returned, if it was called at all: the release, and then the
      destructor's signal, given once.
    - The consumer moves.
    - The consumer, at its wait with nothing to do, has made its test and
      is preempted before it waits.
    - The consumer wakes from a wait that no notification ends: the
      condition variable allows it at any time. *)
Inductive step : system → system → Prop :=
| step_accepted now t s :
    my_reset s = false →
    startup (my s) = true ∨ pc s ≠ entering_wait →
    step s (accepted_transaction now t s)
| step_create_thread s :
    my_reset s = false →
    pc s = not_started → configured (my s) = true →
    step s (create_thread s)
| step_clear_startup s :
    my_reset s = false →
    pc s ≠ not_started →
    step s (clear_startup s)
| step_reset_my s :
    pc s = not_started ∨ startup (my s) = false →
    step s (reset_my s)
| step_shutdown s :
    my_reset s = true → done (my s) = false →
    step s (signal_shutdown s)
| step_consumer now s s' :
    consumer_step now s = Some s' → step s s'
| step_preempted s :
    pc s = at_wait →
    transaction_metadata_queue (my s) = [] → done (my s) = false →
    step s (set_pc entering_wait s)
| step_spurious s :
    pc s = missed → step s (set_pc at_wait s).

Definition initial (s : system) : Prop :=
  startup (my s) = true ∧ done (my s) = false ∧
  transaction_metadata_queue (my s) = [] ∧
  transaction_metadata_process_queue (my s) = [] ∧
  pc s = not_started ∧ processed s = [] ∧ submitted s = [].

Definition reachable (s : system) : Prop :=
  ∃ s0, initial s0 ∧ rtc step s0 s.

(** The consumer alone, as after [join]: it runs until it blocks or
    returns. [clock] gives the time at which the n-th event is
    processed. *)
Fixpoint run_consumer (clock : nat → Z) (fuel : nat) (s : system) : system :=
  match fuel with
  | O => s
  | S fuel' =>
      match consumer_step (clock (length (processed s))) s with
      | Some s' => run_consumer clock fuel' s'
      | None => s
      end
  end.
End worker.

(** ** The vocabulary of the statements *)

Definition records_named (n : account_name) (c : collection) : list stored :=
  List.filter (name_is n) c.

(** The accounts with a record for [n]: as they are when there is one, with
    a new record of name and creation time at the end otherwise. *)
Definition with_account (now : Z) (n : account_name) (accounts : collection)
  : collection :=
  match find_account accounts n with
  | Some _ => accounts
  | None => insert_one accounts (account_doc n now)
  end.

(** A document of the plugin's making has one of these keys: [name] in a
    new account record, [updatedAt] in one whose schema was set,
    [action_num] in an action document. *)
Definition marked (d : document) : Prop :=
  "name" ∈ d.*1 ∨ "updatedAt" ∈ d.*1 ∨ "action_num" ∈ d.*1.

(** The log of the consumer for a batch of [size]. *)
Definition batch_log (size : nat) (queue_size : N) (done : bool)
  : list log_entry :=
  if above_three_quarters size queue_size then [wlog_queue_size size]
  else if done then [ilog_draining_queue size] else [].

(** The log of the consumer from the top of its loop once [done] is set:
    the batch it takes, if there is one, then the round on the empty queue
    and the end. *)
Definition round_log (q : list transaction_metadata) (queue_size : N)
  : list log_entry :=
  match q with
  | [] => []
  | _ => batch_log (length q) queue_size true
  end ++ [ilog_draining_queue 0; ilog_shutdown_gracefully].

(** The log of the consumer after the signal, from where it stands in its
    loop when the signal is given: with a batch taken and not yet logged,
    the batch is logged first, with [done] set. *)
Definition shutdown_log (s : system) : list log_entry :=
  match pc s with
  | captured n => batch_log n (queue_size (my s)) true
  | _ => []
  end ++ round_log (transaction_metadata_queue (my s)) (queue_size (my s)).

(** The consumer is in its loop and the signal will find it: it is not
    between its test and its wait. *)
Definition in_loop (s : system) : Prop :=
  pc s = at_wait ∨ (∃ n, pc s = captured n) ∨ (∃ n, pc s = processing n).

(** What holds in every state the plugin and its consumer can reach: the
    events processed, those in the batch and those in the queue make up
    the events submitted, in their order; the flags follow the life of the
    plugin; and where the consumer stands says what the queues can be. *)
Definition consistent (s : system) : Prop :=
  processed s ++ transaction_metadata_process_queue (my s)
    ++ transaction_metadata_queue (my s) = submitted s
  ∧ (done (my s) = true → my_reset s = true ∧ startup (my s) = false)
  ∧ (startup (my s) = true →
     transaction_metadata_queue (my s) = []
     ∧ transaction_metadata_process_queue (my s) = [])
  ∧ (my_reset s = true → pc s = not_started ∨ startup (my s) = false)
  ∧ match pc s with
    | not_started => startup (my s) = true
    | created | at_wait => transaction_metadata_process_queue (my s) = []
    | entering_wait =>
        transaction_metadata_queue (my s) = []
        ∧ transaction_metadata_process_queue (my s) = []
    | missed =>
        done (my s) = true
        ∧ transaction_metadata_queue (my s) = []
        ∧ transaction_metadata_process_queue (my s) = []
    | captured n | processing n =>
        startup (my s) = false
        ∧ (n = 0%nat →
           done (my s) = true
           ∧ transaction_metadata_queue (my s) = []
           ∧ transaction_metadata_process_queue (my s) = [])
    | exited =>
        done (my s) = true
        ∧ transaction_metadata_queue (my s) = []
        ∧ transaction_metadata_process_queue (my s) = []
    | crashed => my_reset s = true
    end.

Section vocabulary.
Context `{Collaborators}.

(** The tiers of the decoder, as the specification names them.

    The first tier succeeds with [v]: the action is a [newaccount] or a
    [setabi] of the system account, its bytes have the fixed layout, and
    the rendering gives [v]. *)
Inductive tier1_success (act : action) : bson → Prop :=
| tier1_newaccount na v :
    account act = system_account_name → name act = newaccount →
    unpack_newaccount (data act) = Ok na →
    newaccount_to_bson na = Ok v →
    tier1_success act v
| tier1_setabi sa abi json :
    account act = system_account_name → name act = setabi →
    unpack_setabi (data act) = Ok sa →
    unpack_abi_def (chain.abi sa) = Ok abi →
    abi_def_to_bson abi = Ok json →
    tier1_success act
      (b_document [("account", b_utf8 (chain.account sa)); ("abi_def", json)]).

(** The first tier is passed and the second is tried: the action is not
    one of the two, or it is one and the failure is of the kind that the
    first tier catches. A payload that does not have the fixed layout is
    not of that kind. *)
Inductive tier1_passed (act : action) : Prop :=
| tier1_other_account :
    account act ≠ system_account_name → tier1_passed act
| tier1_other_name :
    name act ≠ newaccount → name act ≠ setabi → tier1_passed act
| tier1_newaccount_unrendered na e :
    account act = system_account_name → name act = newaccount →
    unpack_newaccount (data act) = Ok na →
    newaccount_to_bson na = Throw e →
    tier1_passed act
| tier1_setabi_unpacked_not sa :
    account act = system_account_name → name act = setabi →
    unpack_setabi (data act) = Ok sa →
    unpack_abi_def (chain.abi sa) = Throw fc_exception →
    tier1_passed act
| tier1_setabi_unrendered sa abi :
    account act = system_account_name → name act = setabi →
    unpack_setabi (data act) = Ok sa →
    unpack_abi_def (chain.abi sa) = Ok abi →
    abi_def_to_bson abi = Throw fc_exception →
    tier1_passed act.

(** The schema of a stored account, empty when the record has none or when
    it does not read. *)
Definition stored_abi (d : stored) : abi_def :=
  match doc_get "abi" (fields d) with
  | Some v =>
      match abi_def_of_bson v with
      | Ok a => a
      | Throw _ => empty_abi
      end
  | None => empty_abi
  end.

(** The second tier succeeds with [v]: it is tried, the action's account
    has a record, and the decode with the schema of the record gives
    [v]. *)
Inductive tier2_success (accounts : collection) (act : action)
  : bson → Prop :=
| tier2_decoded d v :
    tier1_passed act →
    find_account accounts (account act) = Some d →
    binary_to_bson (stored_abi d) (name act) (data act) = Ok v →
    tier2_success accounts act v.

(** A tier succeeds with [v]. *)
Definition structured (accounts : collection) (act : action) (v : bson)
  : Prop :=
  tier1_success act v ∨ tier2_success accounts act v.

(** What the specification says of a schema that fails to unpack: the
    accounts are left as they were. *)
Definition no_account_mutation (now : Z) (act : action)
    (accounts : collection) : Prop :=
  (update_account now act accounts).1 = accounts.

(** The reading of a [setabi] whose embedded schema does not unpack as a
    document of the first tier that only lacks the decoded schema. *)
Definition schema_omitted_in_tier1 (act_doc : document)
    (accounts : collection) (act : action) : Prop :=
  ∃ sub, add_data act_doc accounts act
         = append act_doc [("data", b_document sub)]
         ∧ "abi_def" ∉ sub.*1.

(** The accounts after the registry has seen the actions in order. *)
Definition registry_after (now : Z) (acts : list action)
    (accounts : collection) : collection :=
  fold_left (λ c act, (update_account now act c).1) acts accounts.

(** [d] is the action document of [act]: the header and the payload that
    [add_data] gives, at some position and state of the accounts. *)
Definition decodes (trx_id_str : string) (act : action) (d : document)
  : Prop :=
  ∃ n accounts,
    d = add_data (action_header n trx_id_str false act) accounts act.

(** The documents of the actions whose account is in the filter. *)
Definition selected (p : filter_mongo_db_plugin_impl) (acts : list action)
    (docs : list document) : list document :=
  (filter (λ ad, account ad.1 ∈ filter_contract p) (zip acts docs)).*2.

Definition run_actions (p : filter_mongo_db_plugin_impl) (now : Z)
    (trx_id_str : string) (acts : list action) (st : captures) : captures :=
  fold_left (λ st act, process_action p now trx_id_str act false st) acts st.

Definition no_captures (p : filter_mongo_db_plugin_impl) : captures :=
  {| conn := mongo_conn p; action_array := []; bulk_filter := [];
     filter_to_write := false; actions_to_write := false; act_num := 0 |}.
End vocabulary.

(** The events given to the processor one after the other, each with the
    time of its processing. *)
Definition process_all `{Collaborators}
    (events : list (Z * transaction_metadata))
    (p : filter_mongo_db_plugin_impl) : filter_mongo_db_plugin_impl :=
  fold_left (λ p e, process_accepted_transaction e.1 e.2 p) events p.

(** What the specification says of the writes of one transaction: no
    collection but the filter collection changes. *)
Definition only_filter_written `{Collaborators} (now : Z)
    (t : transaction_metadata) (p : filter_mongo_db_plugin_impl) : Prop :=
  ∀ c, c ≠ filter_col →
       coll (mongo_conn (_process_accepted_transaction now t p)) c
       = coll (mongo_conn p) c.

(** The plugin after the consumer has processed the batch [l], the first
    of it as the [n]-th event. *)
Fixpoint drain `{Collaborators} (clock : nat → Z) (n : nat)
    (l : list transaction_metadata) (p : filter_mongo_db_plugin_impl)
  : filter_mongo_db_plugin_impl :=
  match l with
  | [] => p
  | t :: rest =>
      drain clock (S n) rest
        (set_queues (transaction_metadata_queue p) rest
           (process_accepted_transaction (clock n) t p))
  end.

(** What the specification says of the log: a batch drained at shutdown is
    logged as drained, with its size. *)
Definition draining_logged `{Collaborators} (clock : nat → Z) (fuel : nat)
    (s : system) : Prop :=
  ilog_draining_queue (length (transaction_metadata_queue (my s)))
  ∈ log (run_consumer clock fuel (plugin_shutdown s)).

(** ** A concrete set of collaborators

    A small codec to run the definitions on: a [newaccount] payload is the
    new name, a [setabi] payload is the account, a zero byte and the raw
    schema, a raw schema is a byte 1 followed by the one action name it
    declares. *)
Module sample.
Definition str (bs : bytes) : string := String.string_of_list_byte bs.
Definition raw (s : string) : bytes := String.list_byte_of_string s.

Fixpoint split_zero (bs : bytes) : option (bytes * bytes) :=
  match bs with
  | [] => None
  | x00 :: rest => Some ([], rest)
  | b :: rest =>
      match split_zero rest with
      | Some (l, r) => Some (b :: l, r)
      | None => None
      end
  end.

Definition strings_of (xs : list bson) : list string :=
  omap (λ x, match x with b_utf8 s => Some s | _ => None end) xs.

#[global] Instance codec : Collaborators := {|
  abi_def := list string;
  empty_abi := [];
  unpack_newaccount bs :=
    match bs with
    | [] => Throw fc_exception
    | _ => Ok {| chain.creator := system_account_name; chain.name := str bs |}
    end;
  unpack_setabi bs :=
    match split_zero bs with
    | Some (a, r) => Ok {| chain.account := str a; chain.abi := r |}
    | None => Throw fc_exception
    end;
  unpack_abi_def bs :=
    match bs with
    | x01 :: rest => Ok [str rest]
    | _ => Throw fc_exception
    end;
  abi_def_to_bson abi := Ok (b_document [("actions", b_array (b_utf8 <$> abi))]);
  newaccount_to_bson na :=
    Ok (b_document [("creator", b_utf8 (chain.creator na));
                    ("name", b_utf8 (chain.name na))]);
  abi_def_of_bson v :=
    match v with
    | b_document [("actions", b_array xs)] => Ok (strings_of xs)
    | _ => Throw fc_exception
    end;
  binary_to_bson abi n bs :=
    if bool_decide (n ∈ abi)
    then Ok (b_document [("args", b_utf8 (str bs))])
    else Throw fc_exception
|}.

Definition act (a n : string) (bs : bytes) : action :=
  {| account := a; name := n; authorization := []; data := bs |}.

Definition event (i : string) (acts : list action) : transaction_metadata :=
  {| id := i; trx := {| actions := acts |} |}.

(** [newaccount] for alice; [setabi] for bob with a schema that does not
    unpack, and with one that declares [hi]. *)
Definition new_alice : action := act system_account_name newaccount (raw "alice").
Definition bad_setabi_bob : action :=
  act system_account_name setabi (raw "bob" ++ [x00; x07]).
Definition good_setabi_bob : action :=
  act system_account_name setabi (raw "bob" ++ [x00; x01] ++ raw "hi").
Definition hi_alice : action := act "alice" "hi" (raw "a").
Definition hi_bob : action := act "bob" "hi" (raw "b").
End sample.

(** ** Executions *)

Module scenario.
(** The plugin configured with the filter [alice] and start block [h],
    on an empty database. *)
Definition options (h : N) : variables_map :=
  {| filter_mongodb_uri := Some "mongodb://127.0.0.1:27017/EOS";
     replay_blockchain := false; hard_replay_blockchain := false;
     delete_all_blocks := false; filter_mongodb_wipe := false;
     filter_mongodb_queue_size := 1; filter_mongodb_block_start := h;
     opt_filter_contract := ["alice"] |}.

Definition plugin (h : N) : filter_mongo_db_plugin_impl :=
  match plugin_initialize 0 (options h) ∅ new_impl with
  | Ok p => p
  | Throw _ => new_impl
  end.

Definition creation : transaction_metadata :=
  sample.event "t0" [sample.new_alice; sample.good_setabi_bob].
Definition greetings : transaction_metadata :=
  sample.event "t1" [sample.hi_alice; sample.hi_bob].
End scenario.

Module run.
(** The plugin of [scenario] from its initialisation: one event during
    startup, the start of the plugin, the consumer's first step, then
    events into the queue. *)
Definition fresh : system :=
  {| my := scenario.plugin 0; pc := not_started; log := [];
     processed := []; submitted := []; my_reset := false |}.

Definition started : system :=
  run_consumer (λ _, 1) 1
    (plugin_startup (accepted_transaction 1 scenario.creation fresh)).

(** Two events in the queue, the consumer waiting. *)
Definition queued : system :=
  accepted_transaction 3 scenario.greetings
    (accepted_transaction 2 scenario.greetings started).

(** One event taken by the consumer, one more submitted meanwhile; and
    then the shutdown. *)
Definition taken : system :=
  accepted_transaction 4 scenario.creation
    (run_consumer (λ _, 3) 2
       (accepted_transaction 2 scenario.greetings started)).

Definition interleaved : system := plugin_shutdown taken.

(** The plugin started and an event in the queue before the consumer's
    thread has run. *)
Definition unbegun : system :=
  accepted_transaction 2 scenario.greetings
    (plugin_startup (accepted_transaction 1 scenario.creation fresh)).
End run.

(** ** The schema lookup: [get_abi_serializer]

    [n.good()] holds of every name but the empty one, whose rendering is
    the empty string. The serializer is built from the definition by the
    serialization library, which may raise; [FC_CAPTURE_AND_LOG] logs and
    swallows what is raised. *)
Definition good (n : account_name) : bool := negb (bool_decide (n = "")).

Section resolver.
Context `{Collaborators}.
Variable abi_serializer : Type.
Variable make_abi_serializer : abi_def → result abi_serializer.

Definition get_abi_serializer (n : account_name) (accounts : collection)
  : option abi_serializer :=
  if good n then
    match find_account accounts n with
    | Some account =>
        match doc_get "abi" (fields account) with
        | Some v =>
            match abi_def_of_bson v with
            | Ok abi =>
                match make_abi_serializer abi with
                | Ok abis => Some abis
                | Throw _ => None
                end
            | Throw _ => None
            end
        | None => None
        end
    | None => None
    end
  else None.
End resolver.

(** Two stored records are the same account: same identifier, same name,
    same time of creation. *)
Definition same_identity (s s' : stored) : Prop :=
  oid s = oid s'
  ∧ doc_get "name" (fields s) = doc_get "name" (fields s')
  ∧ doc_get "createdAt" (fields s) = doc_get "createdAt" (fields s').

(** Two plugins that process alike: same gate, same filter as a set, same
    store. *)
Definition same_processing (p p' : filter_mongo_db_plugin_impl) : Prop :=
  start_block_reached p = start_block_reached p'
  ∧ (∀ a, a ∈ filter_contract p ↔ a ∈ filter_contract p')
  ∧ mongo_conn p = mongo_conn p'.

(** The action documents of a transaction, in the order of its actions:
    each is built at its number, against the accounts as the registry has
    them after the action itself. *)
Fixpoint action_docs `{Collaborators} (now : Z) (trx_id_str : string)
    (acts : list action) (accounts : collection) (n : Z) : list document :=
  match acts with
  | [] => []
  | act :: rest =>
      let accounts' := (update_account now act accounts).1 in
      add_data (action_header n trx_id_str false act) accounts' act
      :: action_docs now trx_id_str rest accounts' (incr_int32 n)
  end.

(** Further inputs to run the definitions on. *)
Module cases.
(** A replay, with or without the wipe flag. *)
Definition replay (wipe : bool) : variables_map :=
  {| filter_mongodb_uri := Some "mongodb://127.0.0.1:27017/EOS";
     replay_blockchain := true; hard_replay_blockchain := false;
     delete_all_blocks := false; filter_mongodb_wipe := wipe;
     filter_mongodb_queue_size := 256; filter_mongodb_block_start := 0;
     opt_filter_contract := ["alice"] |}.

(** A database in use: two accounts, one stored action, and a collection
    of another application. *)
Definition used : gmap string collection :=
  <[accounts_col := [{| oid := 1; fields := account_doc "eosio" 1 |};
                     {| oid := 2; fields := account_doc "alice" 2 |}]]>
    (<[filter_col := [{| oid := 1;
                         fields := [("action_num", b_int32 0)] |}]]>
       (<["notes" := [{| oid := 1; fields := [("text", b_utf8 "x")] |}]]> ∅)).

Definition accounts : collection := coll used accounts_col.

(** A [newaccount] whose payload does not unpack, a second [setabi] for
    bob, with a schema that declares [yo], and an action of bob under
    each. *)
Definition bad_newaccount : action :=
  sample.act system_account_name newaccount [].
Definition second_setabi_bob : action :=
  sample.act system_account_name setabi
    (sample.raw "bob" ++ [x00; x01] ++ sample.raw "yo").

(** A serializer that is its schema. *)
Definition make_abi_serializer (abi : list string) : result (list string) :=
  Ok abi.

(** The plugin of [scenario] with the filter written twice over, and with
    another target size. *)
Definition same_filter : filter_mongo_db_plugin_impl :=
  {| configured := true; wipe_database_on_startup := false;
     start_block_num := 0; start_block_reached := true;
     filter_contract := ["alice"; "alice"];
     mongo_conn := mongo_conn (scenario.plugin 0); queue_size := 7;
     transaction_metadata_queue := [];
     transaction_metadata_process_queue := [];
     done := false; startup := false |}.

Definition no_actions : transaction_metadata := sample.event "t2" [].

(** The consumer after the shutdown of [run.queued]. *)
Definition stopped : system :=
  run_consumer (λ _, 5) 8 (plugin_shutdown run.queued).
End cases.

(** * Properties *)

(** ** Documents and collections *)

Lemma doc_set_key k v d : k ∈ (doc_set k v d).*1.
Proof.
  induction d as [|[k' v'] d IH]; simpl.
  - apply elem_of_cons; by left.
  - destruct (decide (k = k')); simpl; apply elem_of_cons; auto.
Qed.

Lemma count_key_app k d1 d2 :
  count_key k (d1 ++ d2) = (count_key k d1 + count_key k d2)%nat.
Proof. unfold count_key. by rewrite list.filter_app, length_app. Qed.

Lemma find_account_insert_one accounts n now :
  find_account accounts n = None →
  find_account (insert_one accounts (account_doc n now)) n
  = Some {| oid := fresh_oid accounts; fields := account_doc n now |}.
Proof.
  unfold find_account, insert_one. intros Hnone.
  generalize (fresh_oid accounts). intros i.
  induction accounts as [|s c IH]; simpl in *.
  - unfold name_is. simpl. by rewrite bool_decide_eq_true_2.
  - destruct (name_is n s); [done | by apply IH].
Qed.

Lemma insert_many_app c ds : ∃ new,
  insert_many c ds = c ++ new ∧ fields <$> new = ds.
Proof.
  revert c. induction ds as [|d ds IH]; intros c; simpl.
  - exists []. by rewrite app_nil_r.
  - destruct (IH (insert_one c d)) as (new & -> & Hf).
    exists ({| oid := fresh_oid c; fields := d |} :: new).
    unfold insert_one. rewrite <- app_assoc. simpl. split; [done|]. by f_equal.
Qed.

Lemma newaccount_not_setabi : newaccount ≠ setabi.
Proof. discriminate. Qed.

Lemma accounts_not_filter : accounts_col ≠ filter_col.
Proof. discriminate. Qed.

Lemma coll_insert_eq (db : gmap string (list stored)) c x :
  coll (<[c := x]> db) c = x.
Proof. unfold coll. by rewrite lookup_insert_eq. Qed.

Lemma coll_insert_ne (db : gmap string (list stored)) c c' x :
  c ≠ c' → coll (<[c := x]> db) c' = coll db c'.
Proof. intros Hne. unfold coll. by rewrite lookup_insert_ne. Qed.

(** ** The action decoder *)

Section decoder_facts.
Context `{Collaborators}.

Lemma system_decode_returned act_doc act d :
  system_decode act_doc act = Returned d →
  ∃ v, d = append act_doc [("data", v)].
Proof.
  unfold system_decode. intros Hd.
  repeat case_decide; try discriminate;
    repeat (match type of Hd with
            | context [match ?x with _ => _ end] => destruct x
            end; try discriminate);
    injection Hd as <-; eauto.
Qed.

Lemma schema_decode_returned act_doc accounts act d :
  schema_decode act_doc accounts act = Returned d →
  ∃ v, d = append act_doc [("data", v)].
Proof.
  unfold schema_decode. intros Hd.
  destruct (find_account accounts (account act)); [|discriminate].
  destruct (binary_to_bson _ _ _) as [v|[]]; try discriminate.
  injection Hd as <-; eauto.
Qed.

Lemma add_data_shape act_doc accounts act :
  (∃ v, add_data act_doc accounts act = append act_doc [("data", v)])
  ∨ add_data act_doc accounts act = append act_doc [hex_field act].
Proof.
  unfold add_data, add_data_try.
  destruct (system_decode act_doc act) as [d| |e] eqn:Hs.
  - left. by apply system_decode_returned in Hs.
  - destruct (schema_decode act_doc accounts act) as [d| |e] eqn:Hg; auto.
    left. by apply schema_decode_returned in Hg.
  - by right.
Qed.

Lemma action_header_no_payload n trx_id_str cfa act :
  count_key "data" (action_header n trx_id_str cfa act) = 0%nat
  ∧ count_key "hex_data" (action_header n trx_id_str cfa act) = 0%nat.
Proof. split; reflexivity. Qed.

Lemma system_decode_success act_doc act v :
  tier1_success act v →
  system_decode act_doc act = Returned (append act_doc [("data", v)]).
Proof.
  unfold system_decode.
  destruct 1 as [na v Hacc Hname Hna Hv|sa abi json Hacc Hname Hsa Habi Hjson].
  - rewrite decide_True by done. rewrite decide_True by done.
    by rewrite Hna, Hv.
  - rewrite decide_True by done.
    rewrite decide_False
      by (rewrite Hname; symmetry; apply newaccount_not_setabi).
    rewrite decide_True by done. by rewrite Hsa, Habi, Hjson.
Qed.

Lemma system_decode_passed act_doc act :
  tier1_passed act → system_decode act_doc act = FellThrough.
Proof.
  unfold system_decode.
  destruct 1 as [Hacc|Hn Hs|na e Hacc Hname Hna He|sa Hacc Hname Hsa Habi
                 |sa abi Hacc Hname Hsa Habi Hjson].
  - by rewrite decide_False.
  - case_decide; [|done]. rewrite decide_False by done.
    by rewrite decide_False.
  - rewrite decide_True by done. rewrite decide_True by done.
    by rewrite Hna, He.
  - rewrite decide_True by done.
    rewrite decide_False
      by (rewrite Hname; symmetry; apply newaccount_not_setabi).
    rewrite decide_True by done. by rewrite Hsa, Habi.
  - rewrite decide_True by done.
    rewrite decide_False
      by (rewrite Hname; symmetry; apply newaccount_not_setabi).
    rewrite decide_True by done. by rewrite Hsa, Habi, Hjson.
Qed.

Lemma system_decode_returned_tier1 act_doc act d :
  system_decode act_doc act = Returned d →
  ∃ v, tier1_success act v ∧ d = append act_doc [("data", v)].
Proof.
  unfold system_decode. intros Hd.
  destruct (decide (account act = system_account_name)) as [Hacc|];
    [|discriminate].
  destruct (decide (name act = newaccount)) as [Hname|Hnew].
  - destruct (unpack_newaccount (data act)) as [na|] eqn:Hna; [|discriminate].
    destruct (newaccount_to_bson na) as [v|] eqn:Hv; [|discriminate].
    injection Hd as <-. exists v. split; [|done].
    by apply tier1_newaccount with na.
  - destruct (decide (name act = setabi)) as [Hname|]; [|discriminate].
    destruct (unpack_setabi (data act)) as [sa|] eqn:Hsa; [|discriminate].
    destruct (unpack_abi_def (chain.abi sa)) as [abi|[]] eqn:Habi;
      try discriminate.
    destruct (abi_def_to_bson abi) as [json|[]] eqn:Hjson; try discriminate.
    injection Hd as <-. eexists. split; [|done].
    by apply tier1_setabi with abi.
Qed.

Lemma system_decode_fell_through act_doc act :
  system_decode act_doc act = FellThrough → tier1_passed act.
Proof.
  unfold system_decode. intros Hd.
  destruct (decide (account act = system_account_name)) as [Hacc|];
    [|by apply tier1_other_account].
  destruct (decide (name act = newaccount)) as [Hname|Hnew].
  - destruct (unpack_newaccount (data act)) as [na|] eqn:Hna; [|discriminate].
    destruct (newaccount_to_bson na) as [v|e] eqn:Hv; [discriminate|].
    by apply tier1_newaccount_unrendered with na e.
  - destruct (decide (name act = setabi)) as [Hname|];
      [|by apply tier1_other_name].
    destruct (unpack_setabi (data act)) as [sa|] eqn:Hsa; [|discriminate].
    destruct (unpack_abi_def (chain.abi sa)) as [abi|[]] eqn:Habi;
      try discriminate.
    + destruct (abi_def_to_bson abi) as [json|[]] eqn:Hjson; try discriminate.
      by apply tier1_setabi_unrendered with sa abi.
    + by apply tier1_setabi_unpacked_not with sa.
Qed.

Lemma schema_decode_success act_doc accounts act d v :
  find_account accounts (account act) = Some d →
  binary_to_bson (stored_abi d) (name act) (data act) = Ok v →
  schema_decode act_doc accounts act = Returned (append act_doc [("data", v)]).
Proof.
  unfold schema_decode, stored_abi. intros -> Hv. by rewrite Hv.
Qed.

Lemma schema_decode_returned_tier2 act_doc accounts act d :
  tier1_passed act →
  schema_decode act_doc accounts act = Returned d →
  ∃ v, tier2_success accounts act v ∧ d = append act_doc [("data", v)].
Proof.
  unfold schema_decode. intros Hpassed Hd.
  destruct (find_account accounts (account act)) as [from_account|] eqn:Hfind;
    [|discriminate].
  destruct (binary_to_bson _ _ _) as [v|[]] eqn:Hv; try discriminate.
  injection Hd as <-. exists v. split; [|done].
  by apply tier2_decoded with from_account.
Qed.

Lemma add_data_structured act_doc accounts act v :
  structured accounts act v →
  add_data act_doc accounts act = append act_doc [("data", v)].
Proof.
  unfold add_data, add_data_try. intros [H1|[d v' Hpassed Hfind Hv]].
  - by rewrite (system_decode_success act_doc act v H1).
  - rewrite (system_decode_passed act_doc act Hpassed).
    by rewrite (schema_decode_success act_doc accounts act d v').
Qed.

Lemma add_data_unstructured act_doc accounts act :
  (∀ v, ¬ structured accounts act v) →
  add_data act_doc accounts act = append act_doc [hex_field act].
Proof.
  unfold add_data, add_data_try. intros Hnone.
  destruct (system_decode act_doc act) as [d| |e] eqn:Hs; [| |done].
  - apply system_decode_returned_tier1 in Hs as (v & Hv & _).
    destruct (Hnone v). by left.
  - apply system_decode_fell_through in Hs.
    destruct (schema_decode act_doc accounts act) as [d| |e] eqn:Hg;
      [|done..].
    apply (schema_decode_returned_tier2 _ _ _ _ Hs) in Hg as (v & Hv & _).
    destruct (Hnone v). by right.
Qed.

Lemma structured_or_not accounts act :
  (∃ v, structured accounts act v) ∨ (∀ v, ¬ structured accounts act v).
Proof.
  pose (act_doc := [] : document).
  destruct (add_data_shape act_doc accounts act) as [[v Hdata]|Hhex].
  - unfold add_data, add_data_try in Hdata.
    destruct (system_decode act_doc act) as [d| |e] eqn:Hs.
    + apply system_decode_returned_tier1 in Hs as (v' & Hv & _).
      left. exists v'. by left.
    + apply system_decode_fell_through in Hs.
      destruct (schema_decode act_doc accounts act) as [d| |e] eqn:Hg.
      * apply (schema_decode_returned_tier2 _ _ _ _ Hs) in Hg as (v' & Hv & _).
        left. exists v'. by right.
      * apply app_inv_head in Hdata. discriminate.
      * apply app_inv_head in Hdata. discriminate.
    + apply app_inv_head in Hdata. discriminate.
  - right. intros v Hv.
    rewrite (add_data_structured act_doc accounts act v Hv) in Hhex.
    apply app_inv_head in Hhex. discriminate.
Qed.

(** C6. Whatever the account, the action name and the bytes, [add_data]
    adds one field at the end of the action document, and which one is
    settled by the tiers: when a tier succeeds with a value, the field is
    ["data"] with that value; when no tier succeeds, the field is
    ["hex_data"] with the bytes in hex; and one of the two is the case. So
    the document that [process_action] builds holds exactly one of the two
    fields, once. *)
Theorem add_data_exactly_one_payload act_doc accounts act :
  ((∃ v, add_data act_doc accounts act = append act_doc [("data", v)])
   ∨ add_data act_doc accounts act = append act_doc [hex_field act])
  ∧ (∀ v, structured accounts act v →
          add_data act_doc accounts act = append act_doc [("data", v)])
  ∧ ((∀ v, ¬ structured accounts act v) →
     add_data act_doc accounts act
     = append act_doc [("hex_data", b_utf8 (to_hex (data act)))])
  ∧ ((∃ v, structured accounts act v) ∨ (∀ v, ¬ structured accounts act v))
  ∧ ∀ n trx_id_str cfa,
      (count_key "data"
         (add_data (action_header n trx_id_str cfa act) accounts act)
       + count_key "hex_data"
           (add_data (action_header n trx_id_str cfa act) accounts act)
       = 1)%nat.
Proof.
  split; [apply add_data_shape|].
  split; [apply add_data_structured|].
  split; [apply add_data_unstructured|].
  split; [apply structured_or_not|].
  intros n trx_id_str cfa.
  destruct (action_header_no_payload n trx_id_str cfa act) as [Hd Hh].
  destruct (add_data_shape (action_header n trx_id_str cfa act) accounts act)
    as [[v ->]| ->]; unfold append;
    rewrite !count_key_app, Hd, Hh; reflexivity.
Qed.

(** C7, as the code has it. When the schema embedded in a [setabi] of the
    system account does not unpack, the first tier is given up: after an
    [fc] exception the action is decoded with the schema stored for the
    system account, and it gets the hex field when that decode does not
    return, when the system account has no record, or after any other
    exception. *)
Theorem setabi_unpack_failure_falls_to_lower_tiers act_doc accounts act sa e :
  account act = system_account_name →
  name act = setabi →
  unpack_setabi (data act) = Ok sa →
  unpack_abi_def (chain.abi sa) = Throw e →
  add_data act_doc accounts act
  = match e, schema_decode act_doc accounts act with
    | fc_exception, Returned d => d
    | _, _ => append act_doc [hex_field act]
    end
  ∧ (find_account accounts system_account_name = None →
     add_data act_doc accounts act = append act_doc [hex_field act]).
Proof.
  intros Hacc Hname Hsa Habi.
  assert (Hsys : system_decode act_doc act
                 = match e with fc_exception => FellThrough | _ => Raised e end).
  { unfold system_decode. rewrite Hname, Hsa, Habi.
    rewrite decide_True by done.
    rewrite decide_False by (symmetry; apply newaccount_not_setabi).
    rewrite decide_True by done. by destruct e. }
  split.
  - unfold add_data, add_data_try. rewrite Hsys.
    by destruct e.
  - intros Hnone. unfold add_data, add_data_try. rewrite Hsys.
    destruct e; try done.
    unfold schema_decode. by rewrite Hacc, Hnone.
Qed.
End decoder_facts.

Lemma add_data_exactly_one_payload_witness :
  add_data [] [] sample.new_alice
  = [("data", b_document [("creator", b_utf8 system_account_name);
                          ("name", b_utf8 "alice")])]
  ∧ add_data [] [] sample.hi_alice = [("hex_data", b_utf8 "61")].
Proof.
  destruct (add_data_exactly_one_payload (H := sample.codec) [] []
              sample.new_alice) as (_ & Hdata & _).
  destruct (add_data_exactly_one_payload (H := sample.codec) [] []
              sample.hi_alice) as (_ & _ & Hhex & _).
  split.
  - apply Hdata. left.
    by apply (tier1_newaccount sample.new_alice
                {| chain.creator := system_account_name;
                   chain.name := "alice" |}).
  - apply Hhex. intros v [Hv|Hv].
    + destruct Hv as [? ? Hacc|? ? ? Hacc]; discriminate Hacc.
    + destruct Hv as [d v _ Hfind _]. discriminate Hfind.
Defined.

Lemma setabi_unpack_failure_falls_to_lower_tiers_witness :
  add_data [] [] sample.bad_setabi_bob = [hex_field sample.bad_setabi_bob].
Proof.
  pose proof (setabi_unpack_failure_falls_to_lower_tiers [] []
                sample.bad_setabi_bob
                {| chain.account := "bob"; chain.abi := [x07] |} fc_exception
                eq_refl eq_refl eq_refl eq_refl) as [_ Hhex].
  apply Hhex. reflexivity.
Defined.

(** The system account has no record with a schema, the embedded schema of
    the [setabi] does not unpack: the action document gets the hex field
    and no ["data"] field at all. *)
Lemma setabi_unpack_failure_not_tier1 :
  account sample.bad_setabi_bob = system_account_name
  ∧ name sample.bad_setabi_bob = setabi
  ∧ (∃ sa, unpack_setabi (data sample.bad_setabi_bob) = Ok sa
           ∧ unpack_abi_def (chain.abi sa) = Throw fc_exception)
  ∧ ¬ schema_omitted_in_tier1 [] [] sample.bad_setabi_bob.
Proof.
  repeat split.
  - by eexists.
  - intros (sub & Heq & _). vm_compute in Heq. discriminate.
Qed.

(** ** The account registry *)

Lemma name_is_account_doc n now i :
  name_is n {| oid := i; fields := account_doc n now |} = true.
Proof. unfold name_is. simpl. by rewrite bool_decide_eq_true_2. Qed.

Lemma find_account_with_account now n accounts :
  ∃ d, find_account (with_account now n accounts) n = Some d.
Proof.
  unfold with_account.
  destruct (find_account accounts n) as [d|] eqn:Hf.
  - rewrite Hf. eauto.
  - rewrite find_account_insert_one by done. eauto.
Qed.

Section registry_facts.
Context `{Collaborators}.

Lemma update_account_other now act accounts :
  account act ≠ system_account_name →
  update_account now act accounts = (accounts, Ok tt).
Proof. intros Hne. unfold update_account. by rewrite decide_True. Qed.

Lemma update_account_newaccount now act na accounts :
  account act = system_account_name →
  name act = newaccount →
  unpack_newaccount (data act) = Ok na →
  update_account now act accounts
  = (insert_one accounts (account_doc (chain.name na) now), Ok tt).
Proof.
  intros Hacc Hname Hna. unfold update_account.
  rewrite decide_False by (intros Hne; by apply Hne).
  rewrite decide_True by done.
  unfold catch_fc, bind, lift, insert_one_m. by rewrite Hna.
Qed.

(** The [setabi] branch up to the unpacking of the embedded schema. *)
Lemma update_account_setabi now act sa accounts :
  account act = system_account_name →
  name act = setabi →
  unpack_setabi (data act) = Ok sa →
  ∃ d, find_account (with_account now (chain.account sa) accounts)
         (chain.account sa) = Some d
       ∧ (update_account now act accounts).1
         = match unpack_abi_def (chain.abi sa) with
           | Ok abi =>
               match abi_def_to_bson abi with
               | Ok json =>
                   update_one (with_account now (chain.account sa) accounts)
                     (oid d) [("abi", json); ("updatedAt", b_date now)]
               | Throw _ => with_account now (chain.account sa) accounts
               end
           | Throw _ => with_account now (chain.account sa) accounts
           end.
Proof.
  intros Hacc Hname Hsa.
  destruct (find_account_with_account now (chain.account sa) accounts)
    as [d Hd].
  exists d. split; [done|].
  unfold update_account.
  rewrite decide_False by (intros Hne; by apply Hne).
  rewrite decide_False by (rewrite Hname; symmetry; apply newaccount_not_setabi).
  rewrite decide_True by done.
  unfold with_account in *.
  unfold catch_fc, bind, lift, find_account_m, insert_one_m, update_one_m, ret.
  rewrite Hsa.
  destruct (find_account accounts (chain.account sa)) as [d0|] eqn:Hf.
  - rewrite Hf in Hd. injection Hd as ->.
    destruct (unpack_abi_def (chain.abi sa)) as [abi|[]]; try done.
    by destruct (abi_def_to_bson abi) as [json|[]].
  - rewrite Hd.
    destruct (unpack_abi_def (chain.abi sa)) as [abi|[]]; try done.
    by destruct (abi_def_to_bson abi) as [json|[]].
Qed.

(** C2, as the code has it. For a [setabi] whose embedded schema does not
    unpack, a record that exists is left as it is and no schema is
    stored, but an account without a record gets one, of name and
    creation time. When the schema unpacks and renders, the account gets
    a record if it had none and then the record found for it has its
    [abi] and [updatedAt] set. *)
Theorem attach_schema_effect now act sa accounts :
  account act = system_account_name →
  name act = setabi →
  unpack_setabi (data act) = Ok sa →
  (∀ e, unpack_abi_def (chain.abi sa) = Throw e →
     (∀ d, find_account accounts (chain.account sa) = Some d →
           (update_account now act accounts).1 = accounts)
     ∧ (find_account accounts (chain.account sa) = None →
        (update_account now act accounts).1
        = insert_one accounts (account_doc (chain.account sa) now)))
  ∧ (∀ abi json,
       unpack_abi_def (chain.abi sa) = Ok abi →
       abi_def_to_bson abi = Ok json →
       ∃ d, find_account (with_account now (chain.account sa) accounts)
              (chain.account sa) = Some d
            ∧ (update_account now act accounts).1
              = update_one (with_account now (chain.account sa) accounts)
                  (oid d) [("abi", json); ("updatedAt", b_date now)]).
Proof.
  intros Hacc Hname Hsa.
  destruct (update_account_setabi now act sa accounts Hacc Hname Hsa)
    as (d & Hd & Hupd).
  split.
  - intros e He. rewrite He in Hupd. rewrite Hupd. unfold with_account.
    split.
    + intros d0 Hd0. by rewrite Hd0.
    + intros Hnone. by rewrite Hnone.
  - intros abi json Habi Hjson. rewrite Habi, Hjson in Hupd. eauto.
Qed.

(** C4, what the code does. Each [newaccount] of the system account
    whose payload unpacks inserts a record, whether or not the name has
    one: after two of them for one name there are two more records of
    that name than before. *)
Theorem newaccount_twice_two_records now1 now2 act na accounts :
  account act = system_account_name →
  name act = newaccount →
  unpack_newaccount (data act) = Ok na →
  length (records_named (chain.name na)
            (update_account now2 act
               (update_account now1 act accounts).1).1)
  = (2 + length (records_named (chain.name na) accounts))%nat.
Proof.
  intros Hacc Hname Hna.
  rewrite !(update_account_newaccount _ act na) by done. simpl.
  unfold records_named, insert_one.
  rewrite !List.filter_app. simpl.
  rewrite !name_is_account_doc. rewrite !length_app. simpl. lia.
Qed.
End registry_facts.

(** With the identifiers of the store unique, the record that [setabi]
    finds for the account is the one that is updated. *)
Lemma doc_get_doc_set_eq k v d : doc_get k (doc_set k v d) = Some v.
Proof.
  induction d as [|[k' v'] d IH]; simpl.
  - by rewrite decide_True.
  - destruct (decide (k = k')) as [->|Hne]; simpl.
    + by rewrite decide_True.
    + by rewrite decide_False.
Qed.

Lemma doc_get_doc_set_ne k k' v d :
  k ≠ k' → doc_get k' (doc_set k v d) = doc_get k' d.
Proof.
  intros Hne. induction d as [|[k0 v0] d IH]; simpl.
  - by rewrite decide_False.
  - destruct (decide (k = k0)) as [->|Hne0]; simpl.
    + by rewrite !decide_False.
    + destruct (decide (k' = k0)); [done|apply IH].
Qed.

Lemma fresh_oid_above (s : stored) c : s ∈ c → (oid s < fresh_oid c)%N.
Proof.
  unfold fresh_oid. induction c as [|s0 c IH]; simpl.
  - intros Hin. by apply elem_of_nil in Hin.
  - intros [->|Hin]%elem_of_cons; [lia|]. specialize (IH Hin). lia.
Qed.

Lemma with_account_NoDup now n accounts :
  NoDup (oid <$> accounts) → NoDup (oid <$> with_account now n accounts).
Proof.
  intros Hnd. unfold with_account.
  destruct (find_account accounts n); [done|].
  unfold insert_one. rewrite fmap_app. apply list.NoDup_app.
  split; [done|]. split; [|apply list.NoDup_singleton].
  intros i (s & -> & Hin)%list_elem_of_fmap Hi.
  apply list_elem_of_singleton in Hi. simpl in Hi.
  apply fresh_oid_above in Hin. lia.
Qed.

Lemma find_account_update_one accounts n d json now :
  NoDup (oid <$> accounts) →
  find_account accounts n = Some d →
  find_account
    (update_one accounts (oid d) [("abi", json); ("updatedAt", b_date now)]) n
  = Some {| oid := oid d;
            fields := apply_set [("abi", json); ("updatedAt", b_date now)]
                        (fields d) |}.
Proof.
  unfold find_account.
  induction accounts as [|s c IH]; simpl; [done|].
  intros Hnd Hfind. apply list.NoDup_cons in Hnd as [Hs Hnd].
  destruct (name_is n s) eqn:Hname.
  - injection Hfind as <-. rewrite decide_True by done. simpl.
    unfold name_is in *. simpl.
    rewrite !doc_get_doc_set_ne by done. by rewrite Hname.
  - assert (Hd : d ∈ c).
    { apply list_elem_of_In. by apply find_some in Hfind as [? _]. }
    rewrite decide_False.
    + simpl. rewrite Hname. by apply IH.
    + intros Heq. apply Hs. rewrite Heq.
      apply list_elem_of_fmap. by exists d.
Qed.

Lemma attach_schema_sets_fields `{Collaborators} now act sa abi json accounts :
  NoDup (oid <$> accounts) →
  account act = system_account_name →
  name act = setabi →
  unpack_setabi (data act) = Ok sa →
  unpack_abi_def (chain.abi sa) = Ok abi →
  abi_def_to_bson abi = Ok json →
  ∃ d, find_account (update_account now act accounts).1 (chain.account sa)
       = Some d
       ∧ doc_get "abi" (fields d) = Some json
       ∧ doc_get "updatedAt" (fields d) = Some (b_date now).
Proof.
  intros Hnd Hacc Hname Hsa Habi Hjson.
  destruct (update_account_setabi now act sa accounts Hacc Hname Hsa)
    as (d & Hd & ->).
  rewrite Habi, Hjson.
  eexists. split.
  - apply find_account_update_one; [by apply with_account_NoDup|done].
  - simpl. split.
    + rewrite doc_get_doc_set_ne by done. apply doc_get_doc_set_eq.
    + apply doc_get_doc_set_eq.
Qed.

Lemma attach_schema_effect_witness :
  (update_account 7 sample.bad_setabi_bob []).1
  = insert_one [] (account_doc "bob" 7)
  ∧ ∃ d, find_account (with_account 7 "bob" []) "bob" = Some d
         ∧ (update_account 7 sample.good_setabi_bob []).1
           = update_one (with_account 7 "bob" []) (oid d)
               [("abi", b_document [("actions", b_array [b_utf8 "hi"])]);
                ("updatedAt", b_date 7)].
Proof.
  split.
  - destruct (attach_schema_effect (H := sample.codec) 7 sample.bad_setabi_bob
                {| chain.account := "bob"; chain.abi := [x07] |} []
                eq_refl eq_refl eq_refl) as [Hfail _].
    destruct (Hfail fc_exception eq_refl) as [_ Hnew].
    apply Hnew. reflexivity.
  - destruct (attach_schema_effect (H := sample.codec) 7 sample.good_setabi_bob
                {| chain.account := "bob";
                   chain.abi := x01 :: sample.raw "hi" |} []
                eq_refl eq_refl eq_refl) as [_ Hok].
    apply (Hok ["hi"] _ eq_refl eq_refl).
Defined.

(** No record for bob, a [setabi] for bob whose schema does not unpack: a
    record for bob is inserted. *)
Lemma setabi_unpack_failure_creates_account :
  account sample.bad_setabi_bob = system_account_name
  ∧ name sample.bad_setabi_bob = setabi
  ∧ (∃ sa, unpack_setabi (data sample.bad_setabi_bob) = Ok sa
           ∧ unpack_abi_def (chain.abi sa) = Throw fc_exception)
  ∧ ¬ no_account_mutation 7 sample.bad_setabi_bob [].
Proof.
  repeat split.
  - by eexists.
  - unfold no_account_mutation. vm_compute. discriminate.
Qed.

Lemma newaccount_twice_two_records_witness :
  length (records_named "alice"
            (update_account 8 sample.new_alice
               (update_account 7 sample.new_alice []).1).1) = 2%nat.
Proof.
  apply (newaccount_twice_two_records (H := sample.codec) 7 8 sample.new_alice
           {| chain.creator := system_account_name; chain.name := "alice" |} []
           eq_refl eq_refl eq_refl).
Defined.

(** ** The transaction processor *)

Lemma marked_account_doc n now : marked (account_doc n now).
Proof. left. simpl. apply elem_of_cons. by left. Qed.

Lemma marked_apply_set json now d :
  marked (apply_set [("abi", json); ("updatedAt", b_date now)] d).
Proof. right; left. simpl. apply doc_set_key. Qed.

Lemma elem_of_insert_one (s : stored) c d :
  s ∈ insert_one c d → s ∈ c ∨ fields s = d.
Proof.
  unfold insert_one. intros [Hin|Hin]%elem_of_app; [by left|].
  apply list_elem_of_singleton in Hin as ->. by right.
Qed.

Lemma elem_of_update_one (s : stored) c i upd :
  s ∈ update_one c i upd → s ∈ c ∨ ∃ d, fields s = apply_set upd d.
Proof.
  induction c as [|s0 c IH]; simpl; [by left|].
  destruct (decide (oid s0 = i)).
  - intros [->|Hin]%elem_of_cons; [right; by eexists|].
    left. apply elem_of_cons. by right.
  - intros [->|Hin]%elem_of_cons; [left; apply elem_of_cons; by left|].
    destruct (IH Hin) as [?|?]; [left; apply elem_of_cons|]; auto.
Qed.

Lemma elem_of_with_account (s : stored) now n c :
  s ∈ with_account now n c → s ∈ c ∨ marked (fields s).
Proof.
  unfold with_account. destruct (find_account c n); [by left|].
  intros [?| ->]%elem_of_insert_one; [by left|].
  right. apply marked_account_doc.
Qed.

Section processor_facts.
Context `{Collaborators}.

Lemma update_account_cases now act accounts :
  (update_account now act accounts).1 = accounts
  ∨ (∃ n, (update_account now act accounts).1
          = insert_one accounts (account_doc n now))
  ∨ (∃ n i json, (update_account now act accounts).1
                 = update_one (with_account now n accounts) i
                     [("abi", json); ("updatedAt", b_date now)]).
Proof.
  destruct (decide (account act = system_account_name)) as [Hacc|Hacc];
    [|left; by rewrite update_account_other].
  destruct (decide (name act = newaccount)) as [Hnew|Hnew].
  { destruct (unpack_newaccount (data act)) as [na|e] eqn:Hna.
    - right; left. exists (chain.name na).
      by rewrite (update_account_newaccount now act na).
    - left. unfold update_account.
      rewrite decide_False by (intros Hne; by apply Hne).
      rewrite decide_True by done.
      unfold catch_fc, bind, lift. rewrite Hna. by destruct e. }
  destruct (decide (name act = setabi)) as [Hset|Hset].
  { destruct (unpack_setabi (data act)) as [sa|e] eqn:Hsa.
    - destruct (update_account_setabi now act sa accounts Hacc Hset Hsa)
        as (d & _ & ->).
      destruct (unpack_abi_def (chain.abi sa)) as [abi|e].
      + destruct (abi_def_to_bson abi) as [json|e].
        * right; right. by exists (chain.account sa), (oid d), json.
        * unfold with_account.
          destruct (find_account accounts (chain.account sa)); eauto.
      + unfold with_account.
        destruct (find_account accounts (chain.account sa)); eauto.
    - left. unfold update_account.
      rewrite decide_False by (intros Hne; by apply Hne).
      rewrite decide_False by done. rewrite decide_True by done.
      unfold catch_fc, bind, lift. rewrite Hsa. by destruct e. }
  left. unfold update_account.
  rewrite decide_False by (intros Hne; by apply Hne).
  by rewrite !decide_False by done.
Qed.

Lemma update_account_marks now act accounts (s : stored) :
  s ∈ (update_account now act accounts).1 →
  s ∈ accounts ∨ marked (fields s).
Proof.
  destruct (update_account_cases now act accounts)
    as [->|[(n & ->)|(n & i & json & ->)]].
  - by left.
  - intros [?| ->]%elem_of_insert_one; [by left|].
    right. apply marked_account_doc.
  - intros [Hin|(d & ->)]%elem_of_update_one.
    + by apply elem_of_with_account in Hin.
    + right. apply marked_apply_set.
Qed.

Lemma registry_after_marks now acts accounts (s : stored) :
  s ∈ registry_after now acts accounts → s ∈ accounts ∨ marked (fields s).
Proof.
  revert accounts. induction acts as [|act acts IH]; intros accounts;
    simpl; [by left|].
  intros [Hin|?]%IH; [|by right].
  by apply update_account_marks in Hin.
Qed.

(** What the loop over the actions does to the store: the registry sees
    every action, no other collection changes. *)
Lemma run_actions_conn p now trx_id_str acts st :
  coll (conn (run_actions p now trx_id_str acts st)) accounts_col
  = registry_after now acts (coll (conn st) accounts_col)
  ∧ ∀ c, c ≠ accounts_col →
         coll (conn (run_actions p now trx_id_str acts st)) c
         = coll (conn st) c.
Proof.
  revert st. induction acts as [|act acts IH]; intros st; simpl; [done|].
  destruct (IH (process_action p now trx_id_str act false st)) as [Ha Hc].
  unfold run_actions in *. rewrite Ha. split.
  - f_equal. unfold process_action.
    destruct (start_block_reached p); simpl; apply coll_insert_eq.
  - intros c Hne. rewrite Hc by done. unfold process_action.
    destruct (start_block_reached p); simpl; by apply coll_insert_ne.
Qed.

(** Before the start block is reached the loop builds nothing. *)
Lemma run_actions_not_reached p now trx_id_str acts st :
  start_block_reached p = false →
  action_array (run_actions p now trx_id_str acts st) = action_array st
  ∧ bulk_filter (run_actions p now trx_id_str acts st) = bulk_filter st
  ∧ filter_to_write (run_actions p now trx_id_str acts st)
    = filter_to_write st
  ∧ actions_to_write (run_actions p now trx_id_str acts st)
    = actions_to_write st.
Proof.
  intros Hno. revert st.
  induction acts as [|act acts IH]; intros st; simpl; [done|].
  destruct (IH (process_action p now trx_id_str act false st))
    as (-> & -> & -> & ->).
  unfold process_action. by rewrite Hno.
Qed.

Lemma selected_cons p act acts d docs :
  selected p (act :: acts) (d :: docs)
  = (if bool_decide (account act ∈ filter_contract p) then [d] else [])
    ++ selected p acts docs.
Proof.
  unfold selected. simpl. rewrite filter_cons. simpl.
  by case_decide; case_bool_decide.
Qed.

Lemma run_actions_cons p now trx_id_str act acts st :
  run_actions p now trx_id_str (act :: acts) st
  = run_actions p now trx_id_str acts
      (process_action p now trx_id_str act false st).
Proof. reflexivity. Qed.

(** Once it is reached, every action gets its document, and the batch
    gets the documents of the actions whose account is in the filter. *)
Lemma run_actions_reached p now trx_id_str acts st :
  start_block_reached p = true →
  ∃ docs,
    Forall2 (decodes trx_id_str) acts docs
    ∧ action_array (run_actions p now trx_id_str acts st)
      = action_array st ++ (b_document <$> docs)
    ∧ bulk_filter (run_actions p now trx_id_str acts st)
      = bulk_filter st ++ selected p acts docs
    ∧ ((actions_to_write st && filter_to_write st = false →
        bulk_filter st = []) →
       actions_to_write (run_actions p now trx_id_str acts st)
       && filter_to_write (run_actions p now trx_id_str acts st) = false →
       bulk_filter (run_actions p now trx_id_str acts st) = []).
Proof.
  intros Hyes. revert st.
  induction acts as [|act acts IH]; intros st.
  - exists []. split; [constructor|]. simpl. rewrite !app_nil_r. auto.
  - rewrite run_actions_cons.
    set (st1 := process_action p now trx_id_str act false st).
    set (d := add_data (action_header (act_num st) trx_id_str false act)
                (update_account now act (coll (conn st) accounts_col)).1 act).
    assert (Ha1 : action_array st1 = action_array st ++ [b_document d])
      by (unfold st1, process_action; by rewrite Hyes).
    assert (Hb1 : bulk_filter st1
                  = bulk_filter st
                    ++ (if bool_decide (account act ∈ filter_contract p)
                        then [d] else [])).
    { unfold st1, process_action. rewrite Hyes. simpl.
      case_bool_decide; by rewrite ?app_nil_r. }
    assert (Hf1 : filter_to_write st1
                  = if bool_decide (account act ∈ filter_contract p)
                    then true else filter_to_write st)
      by (unfold st1, process_action; by rewrite Hyes).
    assert (Hw1 : actions_to_write st1 = true)
      by (unfold st1, process_action; by rewrite Hyes).
    destruct (IH st1) as (docs & Hdocs & Harr & Hbulk & Hflag).
    exists (d :: docs).
    split; [constructor; [by eexists _, _|done]|].
    split; [by rewrite Harr, Ha1, <- app_assoc|].
    split; [by rewrite Hbulk, Hb1, selected_cons, <- app_assoc|].
    intros Hst Hoff. apply Hflag; [|done].
    rewrite Hw1, Hf1, Hb1. case_bool_decide; [done|].
    simpl. intros Hoff'. rewrite app_nil_r. apply Hst.
    rewrite Hoff'. apply andb_false_r.
Qed.
End processor_facts.

Lemma not_marked_nil : ¬ marked [].
Proof. intros [Hin|[Hin|Hin]]; by apply elem_of_nil in Hin. Qed.

Lemma not_marked_actions v : ¬ marked [("actions", v)].
Proof.
  intros [Hin|[Hin|Hin]]; apply list_elem_of_singleton in Hin; discriminate.
Qed.

Section processor_theorems.
Context `{Collaborators}.

Lemma process_actions_run p now t :
  process_actions p now t
  = run_actions p now (id t) (actions (trx t)) (no_captures p).
Proof. reflexivity. Qed.

Lemma _process_accepted_transaction_conn now t p :
  mongo_conn (_process_accepted_transaction now t p)
  = if start_block_reached p && actions_to_write (process_actions p now t)
       && filter_to_write (process_actions p now t)
    then execute (conn (process_actions p now t))
           (bulk_filter (process_actions p now t))
    else conn (process_actions p now t).
Proof.
  unfold _process_accepted_transaction.
  destruct (start_block_reached p); [|done].
  destruct (actions_to_write _); [|done].
  by destruct (filter_to_write _).
Qed.

(** Only the connection's content changes. *)
Lemma _process_accepted_transaction_frame now t p :
  _process_accepted_transaction now t p
  = set_mongo_conn (mongo_conn (_process_accepted_transaction now t p)) p.
Proof.
  unfold _process_accepted_transaction.
  destruct (start_block_reached p); [|done].
  destruct (actions_to_write _); [|done].
  by destruct (filter_to_write _).
Qed.

Lemma accounts_after now t p :
  coll (mongo_conn (_process_accepted_transaction now t p)) accounts_col
  = registry_after now (actions (trx t)) (coll (mongo_conn p) accounts_col).
Proof.
  rewrite _process_accepted_transaction_conn, process_actions_run.
  destruct (run_actions_conn p now (id t) (actions (trx t)) (no_captures p))
    as [Ha _].
  destruct (_ && _ && _); [|done].
  unfold execute. rewrite coll_insert_ne; [done|].
  intros Heq. by apply accounts_not_filter.
Qed.

Lemma others_after now t p c :
  c ≠ accounts_col → c ≠ filter_col →
  coll (mongo_conn (_process_accepted_transaction now t p)) c
  = coll (mongo_conn p) c.
Proof.
  intros Hna Hnf.
  rewrite _process_accepted_transaction_conn, process_actions_run.
  destruct (run_actions_conn p now (id t) (actions (trx t)) (no_captures p))
    as [_ Hc].
  destruct (_ && _ && _); [|by apply Hc].
  unfold execute. rewrite coll_insert_ne by done. by apply Hc.
Qed.

Lemma filter_after_not_reached now t p :
  start_block_reached p = false →
  coll (mongo_conn (_process_accepted_transaction now t p)) filter_col
  = coll (mongo_conn p) filter_col.
Proof.
  intros Hno.
  rewrite _process_accepted_transaction_conn, process_actions_run, Hno.
  simpl.
  destruct (run_actions_conn p now (id t) (actions (trx t)) (no_captures p))
    as [_ Hc].
  apply Hc. intros Heq. by apply accounts_not_filter.
Qed.

Lemma filter_after_reached now t p :
  start_block_reached p = true →
  ∃ docs,
    Forall2 (decodes (id t)) (actions (trx t)) docs
    ∧ coll (mongo_conn (_process_accepted_transaction now t p)) filter_col
      = insert_many (coll (mongo_conn p) filter_col)
          (selected p (actions (trx t)) docs).
Proof.
  intros Hyes.
  destruct (run_actions_reached p now (id t) (actions (trx t))
              (no_captures p) Hyes) as (docs & Hdocs & _ & Hbulk & Hflag).
  destruct (run_actions_conn p now (id t) (actions (trx t)) (no_captures p))
    as [_ Hc].
  assert (Hf : coll (conn (run_actions p now (id t) (actions (trx t))
                             (no_captures p))) filter_col
               = coll (mongo_conn p) filter_col).
  { apply Hc. intros Heq. by apply accounts_not_filter. }
  exists docs. split; [done|].
  rewrite _process_accepted_transaction_conn, process_actions_run, Hyes.
  simpl in Hbulk. rewrite <- Hbulk.
  set (st := run_actions p now (id t) (actions (trx t)) (no_captures p)) in *.
  simpl. destruct (actions_to_write st && filter_to_write st) eqn:Hw.
  - unfold execute. by rewrite coll_insert_eq, Hf.
  - rewrite Hflag by done. by rewrite Hf.
Qed.

Lemma selected_none p acts docs :
  Forall (λ act, account act ∉ filter_contract p) acts →
  selected p acts docs = [].
Proof.
  intros Hall. revert docs.
  induction Hall as [|act acts Hact Hall IH]; intros docs.
  - by destruct docs.
  - destruct docs as [|d docs]; [done|].
    rewrite selected_cons, IH. by rewrite bool_decide_eq_false_2.
Qed.

Lemma selected_decodes p trx_id_str acts docs d :
  Forall2 (decodes trx_id_str) acts docs →
  d ∈ selected p acts docs →
  ∃ act, act ∈ acts ∧ account act ∈ filter_contract p
         ∧ decodes trx_id_str act d.
Proof.
  induction 1 as [|act d0 acts docs Hd0 Hrest IH].
  - intros Hin. by apply elem_of_nil in Hin.
  - rewrite selected_cons. intros [Hin|Hin]%elem_of_app.
    + case_bool_decide; [|by apply elem_of_nil in Hin].
      apply list_elem_of_singleton in Hin as ->.
      exists act. split; [apply elem_of_cons; by left|done].
    + destruct (IH Hin) as (act' & ? & ? & ?).
      exists act'. split; [apply elem_of_cons; by right|done].
Qed.

Lemma decodes_marked trx_id_str act d : decodes trx_id_str act d → marked d.
Proof.
  intros (n & accounts & ->). right; right.
  destruct (add_data_shape (action_header n trx_id_str false act) accounts act)
    as [[v ->]| ->]; unfold append; rewrite fmap_app;
    apply elem_of_app; left; simpl; apply elem_of_cons; by left.
Qed.

Lemma not_marked_trans_doc p now t : ¬ marked (trans_doc p now t).
Proof.
  unfold trans_doc. destruct (actions (trx t)).
  - apply not_marked_nil.
  - apply not_marked_actions.
Qed.
End processor_theorems.

Section transaction_theorems.
Context `{Collaborators}.

(** C8. With output enabled, the filter collection receives the documents
    of exactly the actions whose account is in the filter, in their
    order: each action has its document, and the documents inserted are
    those of the actions the filter holds. A transaction none of whose
    actions is in the filter, and every transaction under an empty
    filter, leaves the filter collection as it was. *)
Theorem filter_selects_persisted now t p :
  start_block_reached p = true →
  (∃ docs,
     Forall2 (decodes (id t)) (actions (trx t)) docs
     ∧ coll (mongo_conn (_process_accepted_transaction now t p)) filter_col
       = insert_many (coll (mongo_conn p) filter_col)
           (selected p (actions (trx t)) docs))
  ∧ (Forall (λ act, account act ∉ filter_contract p) (actions (trx t)) →
     coll (mongo_conn (_process_accepted_transaction now t p)) filter_col
     = coll (mongo_conn p) filter_col)
  ∧ (filter_contract p = [] →
     coll (mongo_conn (_process_accepted_transaction now t p)) filter_col
     = coll (mongo_conn p) filter_col).
Proof.
  intros Hyes.
  destruct (filter_after_reached now t p Hyes) as (docs & Hdocs & Hcoll).
  assert (Hnone : Forall (λ act, account act ∉ filter_contract p)
                    (actions (trx t)) →
                  coll (mongo_conn (_process_accepted_transaction now t p))
                    filter_col
                  = coll (mongo_conn p) filter_col).
  { intros Hall. rewrite Hcoll. by rewrite selected_none. }
  split; [eauto|]. split; [done|].
  intros Hempty. apply Hnone. apply Forall_forall. intros act _.
  rewrite Hempty. apply not_elem_of_nil.
Qed.

(** C10, as the code has it. Processing a transaction writes to two
    collections only: the accounts, which the registry updates for each
    action, and the filter collection, which receives the bulk insert of
    action documents of accounts in the filter. The document assembled
    for the transaction is not written: a stored document equal to it was
    there before. *)
Theorem transaction_processing_writes now t p :
  (∀ c, c ≠ accounts_col → c ≠ filter_col →
        coll (mongo_conn (_process_accepted_transaction now t p)) c
        = coll (mongo_conn p) c)
  ∧ coll (mongo_conn (_process_accepted_transaction now t p)) accounts_col
    = registry_after now (actions (trx t)) (coll (mongo_conn p) accounts_col)
  ∧ (∃ bulk,
       coll (mongo_conn (_process_accepted_transaction now t p)) filter_col
       = insert_many (coll (mongo_conn p) filter_col) bulk
       ∧ Forall (λ d, ∃ act, act ∈ actions (trx t)
                             ∧ account act ∈ filter_contract p
                             ∧ decodes (id t) act d) bulk)
  ∧ (∀ c (s : stored),
       s ∈ coll (mongo_conn (_process_accepted_transaction now t p)) c →
       fields s = trans_doc p now t →
       s ∈ coll (mongo_conn p) c).
Proof.
  assert (Hbulk : ∃ bulk,
    coll (mongo_conn (_process_accepted_transaction now t p)) filter_col
    = insert_many (coll (mongo_conn p) filter_col) bulk
    ∧ Forall (λ d, ∃ act, act ∈ actions (trx t)
                          ∧ account act ∈ filter_contract p
                          ∧ decodes (id t) act d) bulk).
  { destruct (start_block_reached p) eqn:Hstart.
    - destruct (filter_after_reached now t p Hstart) as (docs & Hdocs & ->).
      eexists. split; [done|]. apply list.Forall_forall. intros d Hd.
      by apply (selected_decodes p (id t) (actions (trx t)) docs).
    - exists []. by rewrite filter_after_not_reached. }
  split; [intros c; apply others_after|].
  split; [apply accounts_after|].
  split; [done|].
  intros c s Hin Hfields.
  destruct (decide (c = accounts_col)) as [->|Hna].
  { rewrite accounts_after in Hin.
    apply registry_after_marks in Hin as [?|Hm]; [done|].
    rewrite Hfields in Hm. by apply not_marked_trans_doc in Hm. }
  destruct (decide (c = filter_col)) as [->|Hnf];
    [|by rewrite others_after in Hin].
  destruct Hbulk as (bulk & Hcoll & Hall). rewrite Hcoll in Hin.
  destruct (insert_many_app (coll (mongo_conn p) filter_col) bulk)
    as (new & Hnew & Hfs).
  rewrite Hnew in Hin. apply elem_of_app in Hin as [?|Hin]; [done|].
  assert (Hd : fields s ∈ bulk).
  { rewrite <- Hfs. apply list_elem_of_fmap. by exists s. }
  rewrite list.Forall_forall in Hall.
  destruct (Hall _ Hd) as (act & _ & _ & Hdec).
  apply decodes_marked in Hdec. rewrite Hfields in Hdec.
  by apply not_marked_trans_doc in Hdec.
Qed.

Lemma process_all_not_reached events p :
  start_block_reached p = false →
  start_block_reached (process_all events p) = false
  ∧ coll (mongo_conn (process_all events p)) filter_col
    = coll (mongo_conn p) filter_col
  ∧ coll (mongo_conn (process_all events p)) accounts_col
    = fold_left (λ c e, registry_after e.1 (actions (trx e.2)) c) events
        (coll (mongo_conn p) accounts_col).
Proof.
  revert p. induction events as [|[now t] events IH]; intros p Hno; [done|].
  simpl. unfold process_accepted_transaction.
  assert (Hno' : start_block_reached (_process_accepted_transaction now t p)
                 = false)
    by (by rewrite _process_accepted_transaction_frame).
  destruct (IH _ Hno') as (Hs & Hf & Ha).
  unfold process_all in *. simpl in *.
  unfold process_accepted_transaction in *.
  rewrite Hs, Hf, Ha.
  by rewrite filter_after_not_reached, accounts_after.
Qed.

(** C1, what the code does. A start block other than 0 leaves
    [start_block_reached] unset at initialisation, and processing never
    sets it: whatever events follow, at whatever height of the chain, the
    filter collection stays as it was, while the registry sees every
    action. *)
Theorem start_block_never_reached now options db p events :
  filter_mongodb_block_start options ≠ 0%N →
  plugin_initialize now options db new_impl = Ok p →
  start_block_reached (process_all events p) = false
  ∧ coll (mongo_conn (process_all events p)) filter_col
    = coll (mongo_conn p) filter_col
  ∧ coll (mongo_conn (process_all events p)) accounts_col
    = fold_left (λ c e, registry_after e.1 (actions (trx e.2)) c) events
        (coll (mongo_conn p) accounts_col)
  ∧ ∀ now' t,
      action_array (process_actions (process_all events p) now' t) = []
      ∧ bulk_filter (process_actions (process_all events p) now' t) = [].
Proof.
  intros Hnum Hinit.
  cut (start_block_reached p = false).
  { intros Hno.
    destruct (process_all_not_reached events p Hno) as (Hs & Hf & Ha).
    split; [done|]. split; [done|]. split; [done|].
    intros now' t. rewrite process_actions_run.
    destruct (run_actions_not_reached (process_all events p) now'
                (id t) (actions (trx t))
                (no_captures (process_all events p)) Hs)
      as (Harr & Hbulk & _).
    split; [exact Harr | exact Hbulk]. }
  unfold plugin_initialize in Hinit.
  destruct (filter_mongodb_uri options); [|by injection Hinit as <-].
  destruct (_ && negb _); [discriminate|].
  injection Hinit as <-.
  rewrite decide_False by done.
  unfold init, wipe_database.
  repeat (match goal with |- context [match ?x with _ => _ end] =>
            destruct x end; simpl); done.
Qed.
End transaction_theorems.

Lemma filter_selects_persisted_witness :
  start_block_reached (scenario.plugin 0) = true
  ∧ ∃ docs,
      Forall2 (decodes "t1") [sample.hi_alice; sample.hi_bob] docs
      ∧ coll (mongo_conn (_process_accepted_transaction 7 scenario.greetings
                            (scenario.plugin 0))) filter_col
        = insert_many [] (selected (scenario.plugin 0)
                            [sample.hi_alice; sample.hi_bob] docs).
Proof.
  split; [reflexivity|].
  apply (filter_selects_persisted (H := sample.codec) 7 scenario.greetings
           (scenario.plugin 0) eq_refl).
Defined.

(** Alice is in the filter and bob is not: of the two actions only alice's
    is stored. *)
Example greetings_persisted :
  fields <$> coll (mongo_conn (_process_accepted_transaction 7
                                 scenario.greetings (scenario.plugin 0)))
               filter_col
  = [[("action_num", b_int32 0); ("trx_id", b_utf8 "t1");
      ("cfa", b_bool false); ("account", b_utf8 "alice");
      ("name", b_utf8 "hi"); ("authorization", b_array []);
      ("hex_data", b_utf8 "61")]].
Proof. vm_compute. reflexivity. Qed.

(** A transaction that creates an account, under any filter: the accounts
    collection changes, and it is not the filter collection. *)
Lemma registry_written_by_processing :
  ¬ only_filter_written 7 scenario.creation (scenario.plugin 0).
Proof.
  intros Hframe. specialize (Hframe accounts_col accounts_not_filter).
  vm_compute in Hframe. discriminate.
Qed.

Lemma start_block_never_reached_witness :
  filter_mongodb_block_start (scenario.options 3) ≠ 0%N
  ∧ plugin_initialize 0 (scenario.options 3) ∅ new_impl
    = Ok (scenario.plugin 3)
  ∧ coll (mongo_conn (process_all [(5, scenario.creation);
                                   (9, scenario.greetings)]
                        (scenario.plugin 3))) filter_col
    = coll (mongo_conn (scenario.plugin 3)) filter_col.
Proof.
  split; [discriminate|]. split; [reflexivity|].
  apply (start_block_never_reached (H := sample.codec) 0 (scenario.options 3)
           ∅ (scenario.plugin 3) [(5, scenario.creation); (9, scenario.greetings)]);
    [discriminate | reflexivity].
Defined.

(** With start block 3 nothing of alice's is stored, however far the chain
    is; with start block 0 the same events store alice's action. *)
Example start_block_3_stores_nothing :
  coll (mongo_conn (process_all [(5, scenario.creation); (9, scenario.greetings)]
                      (scenario.plugin 3))) filter_col = []
  ∧ length (coll (mongo_conn (process_all [(5, scenario.creation);
                                           (9, scenario.greetings)]
                                (scenario.plugin 0))) filter_col) = 1%nat
  ∧ length (coll (mongo_conn (process_all [(5, scenario.creation);
                                           (9, scenario.greetings)]
                                (scenario.plugin 3))) accounts_col) = 3%nat.
Proof. vm_compute. auto. Qed.

(** ** The queue *)

(** The wait of a blocked call is one of two values: 200 when the queue is
    seen non-empty after the lock is released, 0 when the consumer has
    taken it in between. *)
Lemma queue_sleep_blocked queue_size locked unlocked :
  (N.to_nat queue_size < locked)%nat →
  queue_sleep queue_size locked unlocked
  = Some (if bool_decide (0 < unlocked)%nat then 200 else 0).
Proof.
  intros Hlt. unfold queue_sleep. rewrite bool_decide_eq_true_2 by done.
  by case_bool_decide.
Qed.

Lemma queue_sleep_free queue_size locked unlocked :
  (locked ≤ N.to_nat queue_size)%nat →
  queue_sleep queue_size locked unlocked = None.
Proof.
  intros Hle. unfold queue_sleep. by rewrite bool_decide_eq_false_2 by lia.
Qed.

(** C3, what the code does. [sleep_time] and [last_queue_size] start anew
    in every call, so a blocked call waits 200 ms whatever the call before
    it waited: two blocked calls in a row, the queue longer at the second,
    wait the same. Both events are at the end of the queue afterwards. *)
Theorem blocked_enqueue_sleeps_200 {Entry : Type} (q : list Entry)
    (e1 e2 : Entry) (queue_size : N) :
  (N.to_nat queue_size < length q)%nat →
  (queue q e1 queue_size).1 = Some 200
  ∧ (queue (queue q e1 queue_size).2 e2 queue_size).1 = Some 200
  ∧ (queue (queue q e1 queue_size).2 e2 queue_size).2 = q ++ [e1; e2].
Proof.
  intros Hlt. unfold queue. simpl.
  rewrite !queue_sleep_blocked by (rewrite ?length_app; simpl; lia).
  rewrite !bool_decide_eq_true_2 by (rewrite ?length_app; simpl; lia).
  by rewrite <- app_assoc.
Qed.

Lemma blocked_enqueue_sleeps_200_witness :
  (N.to_nat 1 < length ["a"; "b"])%nat
  ∧ (queue ["a"; "b"] "c" 1).1 = Some 200
  ∧ (queue (queue ["a"; "b"] "c" 1).2 "d" 1).1 = Some 200
  ∧ (queue (queue ["a"; "b"] "c" 1).2 "d" 1).2 = ["a"; "b"; "c"; "d"].
Proof.
  split; [simpl; lia|].
  apply (blocked_enqueue_sleeps_200 ["a"; "b"] "c" "d" 1). simpl; lia.
Defined.

(** ** The consumer *)

(** The cases of where the consumer stands, each closed by what the
    invariant says there. *)
Ltac pc_facts := simpl in *; intuition (try congruence; try discriminate).

Section consumer_facts.
Context `{Collaborators}.

Lemma process_accepted_transaction_fields now t p :
  done (process_accepted_transaction now t p) = done p
  ∧ startup (process_accepted_transaction now t p) = startup p
  ∧ transaction_metadata_queue (process_accepted_transaction now t p)
    = transaction_metadata_queue p
  ∧ transaction_metadata_process_queue (process_accepted_transaction now t p)
    = transaction_metadata_process_queue p
  ∧ queue_size (process_accepted_transaction now t p) = queue_size p.
Proof.
  unfold process_accepted_transaction.
  by rewrite _process_accepted_transaction_frame.
Qed.

Lemma consistent_live s :
  consistent s → my_reset s = false → done (my s) = false.
Proof.
  intros (_ & Hdone & _) Hr. destruct (done (my s)); [|done].
  destruct Hdone; congruence.
Qed.

Lemma accepted_transaction_consistent now t s :
  my_reset s = false →
  startup (my s) = true ∨ pc s ≠ entering_wait →
  consistent s → consistent (accepted_transaction now t s).
Proof.
  intros Hr Hg Hinv.
  pose proof (consistent_live s Hinv Hr) as Hd.
  destruct Hinv as (Hall & Hdone & Hstart & Hreset & Hpc).
  destruct (process_accepted_transaction_fields now t (my s))
    as (Hd' & Hs' & Hq' & Hpq' & _).
  unfold accepted_transaction, consistent.
  destruct (startup (my s)) eqn:Hst; simpl.
  - destruct Hstart as [Hq0 Hpq0]; [done|].
    rewrite Hd', Hs', Hq', Hpq', Hd, Hq0, Hpq0, Hr.
    rewrite Hq0, Hpq0, !app_nil_r in Hall. rewrite Hall, !app_nil_r.
    repeat split; try done; try congruence; destruct (pc s); pc_facts.
  - rewrite Hd, Hr, <- Hall, <- !app_assoc.
    repeat split; try done; try congruence; destruct (pc s); pc_facts.
Qed.

Lemma create_thread_consistent s :
  my_reset s = false → pc s = not_started →
  consistent s → consistent (create_thread s).
Proof.
  intros Hr Hat (Hall & Hdone & Hstart & Hreset & Hpc).
  rewrite Hat in Hpc. destruct (Hstart Hpc) as [Hq0 Hpq0].
  unfold consistent. simpl. repeat split; try done; pc_facts.
Qed.

Lemma clear_startup_consistent s :
  my_reset s = false → pc s ≠ not_started →
  consistent s → consistent (clear_startup s).
Proof.
  intros Hr Hat Hinv.
  pose proof (consistent_live s Hinv Hr) as Hd.
  destruct Hinv as (Hall & Hdone & Hstart & Hreset & Hpc).
  unfold consistent. simpl. rewrite Hd, Hr.
  repeat split; try done; try congruence; destruct (pc s); pc_facts.
Qed.

Lemma reset_my_consistent s :
  pc s = not_started ∨ startup (my s) = false →
  consistent s → consistent (reset_my s).
Proof.
  intros Hg (Hall & Hdone & Hstart & Hreset & Hpc).
  unfold consistent. simpl.
  repeat split; try done; try (by apply Hdone); destruct (pc s); pc_facts.
Qed.

Lemma signal_shutdown_consistent s :
  my_reset s = true → consistent s → consistent (signal_shutdown s).
Proof.
  intros Hr Hinv. unfold signal_shutdown.
  destruct (startup (my s)) eqn:Hst; [done|].
  destruct Hinv as (Hall & Hdone & Hstart & Hreset & Hpc).
  unfold consistent. simpl.
  repeat split; try done; destruct (pc s); pc_facts.
Qed.

Lemma consumer_step_consistent now s s' :
  consumer_step now s = Some s' → consistent s → consistent s'.
Proof.
  unfold consumer_step. intros Hstep (Hall & Hdone & Hstart & Hreset & Hpc).
  assert (Hns : pc s ≠ not_started).
  { intros Hat. by rewrite Hat in Hstep. }
  destruct (pc s) as [| | | | |n|n| |] eqn:Hat; try discriminate.
  - (* the thread begins *)
    destruct (my_reset s) eqn:Hr; injection Hstep as <-;
      unfold consistent; simpl; rewrite ?Hr; repeat split; try done;
      pc_facts.
  - destruct (transaction_metadata_queue (my s)) as [|t q] eqn:Hq.
    + destruct (done (my s)) eqn:Hd; [|discriminate].
      injection Hstep as <-. unfold consistent. simpl.
      rewrite Hq, Hd. repeat split; try done; pc_facts.
    + injection Hstep as <-. unfold consistent. simpl.
      rewrite Hpc in Hall. simpl in Hall.
      rewrite app_nil_r. repeat split; try done; try pc_facts.
      destruct (startup (my s)); [|done]. by destruct Hstart.
  - (* the wait is entered *)
    destruct Hpc as [Hq Hpq].
    destruct (done (my s)) eqn:Hd; injection Hstep as <-;
      unfold consistent; simpl; rewrite ?Hd; repeat split; try done;
      pc_facts.
  - injection Hstep as <-. unfold consistent. simpl.
    repeat split; try done; pc_facts.
  - destruct Hpc as [Hst Hn].
    destruct (process_accepted_transaction_fields now
                (match transaction_metadata_process_queue (my s) with
                 | t :: _ => t | [] => {| id := ""; trx := {| actions := [] |} |}
                 end) (my s)) as (Hd & Hs & Hq & _ & _).
    destruct (transaction_metadata_process_queue (my s)) as [|t rest] eqn:Hpq.
    + destruct (bool_decide (n = 0%nat) && done (my s)) eqn:Hex.
      * injection Hstep as <-. unfold consistent. simpl.
        apply andb_true_iff in Hex as [Hz%bool_decide_eq_true _].
        rewrite Hpq. repeat split; try done; pc_facts.
      * injection Hstep as <-. unfold consistent. simpl.
        rewrite Hpq. repeat split; try done; pc_facts.
    + injection Hstep as <-. unfold consistent. simpl.
      rewrite Hd, Hs, <- Hall, <- !app_assoc.
      repeat split; try done; pc_facts.
Qed.

Lemma preempted_consistent s :
  pc s = at_wait → transaction_metadata_queue (my s) = [] →
  consistent s → consistent (set_pc entering_wait s).
Proof.
  intros Hat Hq (Hall & Hdone & Hstart & Hreset & Hpc).
  rewrite Hat in Hpc, Hreset.
  unfold consistent. simpl. repeat split; try done; pc_facts.
Qed.

Lemma spurious_consistent s :
  pc s = missed → consistent s → consistent (set_pc at_wait s).
Proof.
  intros Hat (Hall & Hdone & Hstart & Hreset & Hpc).
  rewrite Hat in Hpc, Hreset.
  unfold consistent. simpl. repeat split; try done; pc_facts.
Qed.

Lemma step_consistent s s' : step s s' → consistent s → consistent s'.
Proof.
  destruct 1.
  - by apply accepted_transaction_consistent.
  - by apply create_thread_consistent.
  - by apply clear_startup_consistent.
  - by apply reset_my_consistent.
  - by apply signal_shutdown_consistent.
  - by apply consumer_step_consistent with now.
  - by apply preempted_consistent.
  - by apply spurious_consistent.
Qed.

Lemma initial_consistent s : initial s → consistent s.
Proof.
  intros (Hst & Hd & Hq & Hpq & Hat & Hp & Hsub).
  unfold consistent. rewrite Hp, Hq, Hpq, Hsub, Hat, Hd, Hst.
  repeat split; try done. by left.
Qed.

Lemma reachable_consistent s : reachable s → consistent s.
Proof.
  intros (s0 & Hinit & Hsteps).
  apply initial_consistent in Hinit.
  induction Hsteps as [|s1 s2 s3 Hstep _ IH]; [done|].
  apply IH. by apply step_consistent with s1.
Qed.

Lemma reachable_step s s' : reachable s → rtc step s s' → reachable s'.
Proof.
  intros (s0 & Hinit & Hsteps) Hmore. exists s0. split; [done|].
  by etrans.
Qed.

Lemma run_consumer_steps clock fuel s : rtc step s (run_consumer clock fuel s).
Proof.
  revert s. induction fuel as [|fuel IH]; intros s; simpl; [done|].
  destruct (consumer_step _ s) as [s'|] eqn:Hstep; [|done].
  eapply rtc_l; [by eapply step_consumer|apply IH].
Qed.

Lemma run_consumer_reachable clock fuel s :
  reachable s → reachable (run_consumer clock fuel s).
Proof.
  intros Hreach. eapply reachable_step; [done|apply run_consumer_steps].
Qed.

Lemma run_consumer_submitted clock fuel s :
  submitted (run_consumer clock fuel s) = submitted s.
Proof.
  revert s. induction fuel as [|fuel IH]; intros s; simpl; [done|].
  destruct (consumer_step _ s) as [s'|] eqn:Hstep; [|done].
  rewrite IH. unfold consumer_step in Hstep.
  repeat (match type of Hstep with
          | context [match ?x with _ => _ end] => destruct x
          end; try discriminate);
    by injection Hstep as <-.
Qed.

(** [plugin_startup] and [plugin_shutdown] as steps of the whole. *)
Lemma plugin_startup_steps s :
  my_reset s = false → pc s = not_started → rtc step s (plugin_startup s).
Proof.
  intros Hr Hat. unfold plugin_startup.
  destruct (configured (my s)) eqn:Hc; [|done].
  eapply rtc_l; [by apply step_create_thread|].
  apply rtc_once. by apply step_clear_startup.
Qed.

Lemma plugin_shutdown_steps s :
  pc s = not_started ∨ startup (my s) = false →
  done (my s) = false →
  rtc step s (plugin_shutdown s).
Proof.
  intros Hg Hd. unfold plugin_shutdown.
  eapply rtc_l; [by apply step_reset_my|].
  apply rtc_once. by apply step_shutdown.
Qed.
End consumer_facts.

Section consumer_runs.
Context `{Collaborators}.

(** *** One step, case by case *)

Lemma consumer_step_capture now p lg pr sb rl t q :
  transaction_metadata_queue p = t :: q →
  consumer_step now {| my := p; pc := at_wait; log := lg;
                       processed := pr; submitted := sb; my_reset := rl |}
  = Some {| my := set_queues [] (t :: q) p; pc := captured (S (length q));
            log := lg; processed := pr; submitted := sb; my_reset := rl |}.
Proof. intros Hq. unfold consumer_step. simpl. by rewrite Hq. Qed.

Lemma consumer_step_capture_done now p lg pr sb rl :
  transaction_metadata_queue p = [] → done p = true →
  consumer_step now {| my := p; pc := at_wait; log := lg;
                       processed := pr; submitted := sb; my_reset := rl |}
  = Some {| my := p; pc := captured 0; log := lg;
            processed := pr; submitted := sb; my_reset := rl |}.
Proof. intros Hq Hd. unfold consumer_step. simpl. by rewrite Hq, Hd. Qed.

Lemma consumer_step_log now p lg pr sb rl n :
  consumer_step now {| my := p; pc := captured n; log := lg;
                       processed := pr; submitted := sb; my_reset := rl |}
  = Some {| my := p; pc := processing n;
            log := lg ++ batch_log n (queue_size p) (done p);
            processed := pr; submitted := sb; my_reset := rl |}.
Proof. reflexivity. Qed.

Lemma consumer_step_process now p lg pr sb rl n t rest :
  transaction_metadata_process_queue p = t :: rest →
  consumer_step now {| my := p; pc := processing n; log := lg;
                       processed := pr; submitted := sb; my_reset := rl |}
  = Some {| my := set_queues (transaction_metadata_queue p) rest
                    (process_accepted_transaction now t p);
            pc := processing n; log := lg;
            processed := pr ++ [t]; submitted := sb; my_reset := rl |}.
Proof. intros Hpq. unfold consumer_step. simpl. by rewrite Hpq. Qed.

Lemma consumer_step_again now p lg pr sb rl n :
  transaction_metadata_process_queue p = [] →
  consumer_step now {| my := p; pc := processing (S n); log := lg;
                       processed := pr; submitted := sb; my_reset := rl |}
  = Some {| my := p; pc := at_wait; log := lg;
            processed := pr; submitted := sb; my_reset := rl |}.
Proof. intros Hpq. unfold consumer_step. simpl. by rewrite Hpq. Qed.

Lemma consumer_step_exit now p lg pr sb rl :
  transaction_metadata_process_queue p = [] → done p = true →
  consumer_step now {| my := p; pc := processing 0; log := lg;
                       processed := pr; submitted := sb; my_reset := rl |}
  = Some {| my := p; pc := exited; log := lg ++ [ilog_shutdown_gracefully];
            processed := pr; submitted := sb; my_reset := rl |}.
Proof. intros Hpq Hd. unfold consumer_step. simpl. by rewrite Hpq, Hd. Qed.

Lemma run_consumer_step clock fuel s s' :
  consumer_step (clock (length (processed s))) s = Some s' →
  run_consumer clock (S fuel) s = run_consumer clock fuel s'.
Proof. intros Hstep. simpl. by rewrite Hstep. Qed.

Lemma run_consumer_blocked clock fuel s :
  (∀ now, consumer_step now s = None) → run_consumer clock fuel s = s.
Proof. intros Hnone. destruct fuel; simpl; [done|]. by rewrite Hnone. Qed.

Lemma run_consumer_exited clock fuel s :
  pc s = exited → run_consumer clock fuel s = s.
Proof.
  intros Hat. apply run_consumer_blocked. intros now.
  unfold consumer_step. by rewrite Hat.
Qed.

Lemma run_consumer_crashed clock fuel s :
  pc s = crashed → run_consumer clock fuel s = s.
Proof.
  intros Hat. apply run_consumer_blocked. intros now.
  unfold consumer_step. by rewrite Hat.
Qed.

(** *** The batch *)

Lemma drain_fields clock n l p :
  transaction_metadata_queue (drain clock n l p)
  = transaction_metadata_queue p
  ∧ (transaction_metadata_process_queue p = l →
     transaction_metadata_process_queue (drain clock n l p) = [])
  ∧ done (drain clock n l p) = done p
  ∧ startup (drain clock n l p) = startup p
  ∧ queue_size (drain clock n l p) = queue_size p.
Proof.
  revert n p. induction l as [|t rest IH]; intros n p; simpl; [done|].
  destruct (process_accepted_transaction_fields (clock n) t p)
    as (Hd & Hs & _ & _ & Hsize).
  destruct (IH (S n) (set_queues (transaction_metadata_queue p) rest
                        (process_accepted_transaction (clock n) t p)))
    as (-> & Hpq & -> & -> & ->).
  simpl. rewrite Hd, Hs, Hsize. repeat split; try done.
  intros _. by apply Hpq.
Qed.

Lemma run_consumer_drain clock k n l p lg pr sb rl :
  transaction_metadata_process_queue p = l →
  run_consumer clock (length l + k)
    {| my := p; pc := processing n; log := lg;
       processed := pr; submitted := sb; my_reset := rl |}
  = run_consumer clock k
      {| my := drain clock (length pr) l p; pc := processing n; log := lg;
         processed := pr ++ l; submitted := sb; my_reset := rl |}.
Proof.
  revert p pr. induction l as [|t rest IH]; intros p pr Hpq.
  - simpl. by rewrite app_nil_r.
  - change (length (t :: rest) + k)%nat with (S (length rest + k)).
    erewrite run_consumer_step by (by apply consumer_step_process).
    rewrite IH by done. simpl processed.
    rewrite length_app, Nat.add_1_r, <- app_assoc. done.
Qed.

(** *** After the signal *)

Lemma batch_log_empty queue_size : batch_log 0 queue_size true
                                   = [ilog_draining_queue 0].
Proof.
  unfold batch_log, above_three_quarters.
  by rewrite bool_decide_eq_false_2 by lia.
Qed.

(** From the top of the loop, [done] set. *)
Lemma run_round clock fuel p lg pr sb rl :
  done p = true →
  transaction_metadata_process_queue p = [] →
  (length (transaction_metadata_queue p) + 6 ≤ fuel)%nat →
  ∃ p',
    run_consumer clock fuel
      {| my := p; pc := at_wait; log := lg;
         processed := pr; submitted := sb; my_reset := rl |}
    = {| my := p'; pc := exited;
         log := lg ++ round_log (transaction_metadata_queue p) (queue_size p);
         processed := pr ++ transaction_metadata_queue p;
         submitted := sb; my_reset := rl |}
    ∧ transaction_metadata_queue p' = []
    ∧ transaction_metadata_process_queue p' = [].
Proof.
  intros Hd Hpq Hfuel. unfold round_log.
  destruct (transaction_metadata_queue p) as [|t q] eqn:Hq.
  - destruct fuel as [|[|[|fuel]]]; simpl in Hfuel; try lia.
    erewrite run_consumer_step by (by apply consumer_step_capture_done).
    erewrite run_consumer_step by apply consumer_step_log.
    erewrite run_consumer_step by (by apply consumer_step_exit).
    rewrite run_consumer_exited by done.
    exists p. rewrite Hd, batch_log_empty, <- !app_assoc, app_nil_r. done.
  - replace fuel
      with (S (S (length (t :: q) + S (S (S (S (fuel - length (t :: q) - 6)))))))
      by (simpl in *; lia).
    erewrite run_consumer_step by (by apply consumer_step_capture).
    erewrite run_consumer_step by apply consumer_step_log.
    rewrite run_consumer_drain by done.
    set (p1 := drain clock (length pr) (t :: q) (set_queues [] (t :: q) p)).
    destruct (drain_fields clock (length pr) (t :: q)
                (set_queues [] (t :: q) p)) as (Hq1 & Hpq1 & Hd1 & _ & Hs1).
    fold p1 in Hq1, Hpq1, Hd1, Hs1. simpl in Hq1, Hd1, Hs1.
    specialize (Hpq1 eq_refl).
    erewrite run_consumer_step by (by apply consumer_step_again).
    erewrite run_consumer_step
      by (apply consumer_step_capture_done; [done|by rewrite Hd1]).
    erewrite run_consumer_step by apply consumer_step_log.
    erewrite run_consumer_step
      by (apply consumer_step_exit; [done|by rewrite Hd1]).
    rewrite run_consumer_exited by done.
    exists p1. simpl. rewrite Hd1, Hd, Hs1, batch_log_empty, <- !app_assoc.
    done.
Qed.

(** From the processing of a batch that was not empty, [done] set. *)
Lemma run_rest clock fuel n p lg pr sb rl :
  done p = true →
  (length (transaction_metadata_process_queue p)
   + length (transaction_metadata_queue p) + 7 ≤ fuel)%nat →
  ∃ p',
    run_consumer clock fuel
      {| my := p; pc := processing (S n); log := lg;
         processed := pr; submitted := sb; my_reset := rl |}
    = {| my := p'; pc := exited;
         log := lg ++ round_log (transaction_metadata_queue p) (queue_size p);
         processed := pr ++ transaction_metadata_process_queue p
                         ++ transaction_metadata_queue p;
         submitted := sb; my_reset := rl |}
    ∧ transaction_metadata_queue p' = []
    ∧ transaction_metadata_process_queue p' = [].
Proof.
  intros Hd Hfuel.
  set (l := transaction_metadata_process_queue p) in *.
  replace fuel with (length l + S (fuel - length l - 1))%nat by lia.
  rewrite run_consumer_drain by done.
  set (p1 := drain clock (length pr) l p).
  destruct (drain_fields clock (length pr) l p) as (Hq1 & Hpq1 & Hd1 & _ & Hs1).
  fold p1 in Hq1, Hpq1, Hd1, Hs1. specialize (Hpq1 eq_refl).
  erewrite run_consumer_step by (by apply consumer_step_again).
  destruct (run_round clock (fuel - length l - 1) p1 lg (pr ++ l) sb rl)
    as (p' & Hrun & Hq' & Hpq'); [by rewrite Hd1|done|rewrite Hq1; lia|].
  exists p'. rewrite Hrun, Hq1, Hs1, <- app_assoc. done.
Qed.
End consumer_runs.

Section consumer_theorems.
Context `{Collaborators}.

(** C5, where the code departs from it. The plugin is started and events
    are in the queue; [plugin_shutdown] comes before the consumer's thread
    has run. The thread then begins with the plugin's pointer emptied and
    dies on it: the consumer never returns, it processes none of the
    queued events, the store stays as it was, and what was submitted is
    not what was processed. *)
Theorem consumer_not_begun_drops_queue clock fuel s :
  reachable s →
  my_reset s = false →
  pc s = created →
  transaction_metadata_queue (my s) ≠ [] →
  rtc step s (run_consumer clock fuel (plugin_shutdown s))
  ∧ pc (run_consumer clock fuel (plugin_shutdown s)) ≠ exited
  ∧ ((1 ≤ fuel)%nat →
     pc (run_consumer clock fuel (plugin_shutdown s)) = crashed)
  ∧ processed (run_consumer clock fuel (plugin_shutdown s)) = processed s
  ∧ mongo_conn (my (run_consumer clock fuel (plugin_shutdown s)))
    = mongo_conn (my s)
  ∧ transaction_metadata_queue
      (my (run_consumer clock fuel (plugin_shutdown s)))
    = transaction_metadata_queue (my s)
  ∧ processed (run_consumer clock fuel (plugin_shutdown s))
    ≠ submitted (run_consumer clock fuel (plugin_shutdown s)).
Proof.
  intros Hreach Hr Hat Hq.
  pose proof (reachable_consistent s Hreach) as Hinv.
  pose proof (consistent_live s Hinv Hr) as Hd.
  destruct Hinv as (Hall & Hdone & Hstart & Hreset & Hpc).
  assert (Hst : startup (my s) = false).
  { destruct (startup (my s)); [|done]. by destruct Hstart. }
  split.
  { etrans; [apply plugin_shutdown_steps; auto|apply run_consumer_steps]. }
  rewrite Hat in Hpc.
  assert (Hneq : processed s ≠ submitted s).
  { intros Heq. rewrite Hpc, <- Heq in Hall. simpl in Hall.
    apply Hq, (app_inv_head (processed s)). by rewrite app_nil_r. }
  destruct s as [p at_ lg pr sb rl]. simpl in *. subst at_.
  unfold plugin_shutdown, signal_shutdown, reset_my. simpl. rewrite Hst.
  destruct fuel as [|fuel]; simpl.
  - repeat split; try done. lia.
  - rewrite run_consumer_crashed by done. simpl. repeat split; done.
Qed.

(** C9, as the code has it. The plugin is started, the consumer is in its
    loop (waiting, with a batch just taken, or processing one) and
    [plugin_shutdown] gives the signal: the consumer processes the rest of
    its batch and every event of the queue, in order, and returns. A batch
    that is not empty is logged when it is taken: as a warning of its size
    when that is above three quarters of the target size, as drained
    otherwise. The last round, on the empty queue, is logged as draining a
    queue of size 0, and then the graceful shutdown. *)
Theorem shutdown_drains clock fuel s :
  reachable s →
  startup (my s) = false →
  done (my s) = false →
  in_loop s →
  (length (transaction_metadata_process_queue (my s))
   + length (transaction_metadata_queue (my s)) + 8 ≤ fuel)%nat →
  pc (run_consumer clock fuel (plugin_shutdown s)) = exited
  ∧ processed (run_consumer clock fuel (plugin_shutdown s))
    = processed s ++ transaction_metadata_process_queue (my s)
        ++ transaction_metadata_queue (my s)
  ∧ processed (run_consumer clock fuel (plugin_shutdown s))
    = submitted (run_consumer clock fuel (plugin_shutdown s))
  ∧ transaction_metadata_queue
      (my (run_consumer clock fuel (plugin_shutdown s))) = []
  ∧ transaction_metadata_process_queue
      (my (run_consumer clock fuel (plugin_shutdown s))) = []
  ∧ log (run_consumer clock fuel (plugin_shutdown s))
    = log s ++ [ilog_shutdown_in_process] ++ shutdown_log s.
Proof.
  intros Hreach Hst Hd Hloop Hfuel.
  pose proof (reachable_consistent s Hreach)
    as (Hall & Hdone & Hstart & Hreset & Hpc).
  unfold shutdown_log. unfold in_loop in Hloop.
  destruct s as [p at_ lg pr sb rl]. simpl in *.
  unfold plugin_shutdown, signal_shutdown, reset_my. simpl. rewrite Hst.
  set (p0 := set_flags true false p).
  destruct Hloop as [->|[[n ->]|[n ->]]].
  - destruct (run_round clock fuel p0 (lg ++ [ilog_shutdown_in_process])
                pr sb true) as (p' & Hrun & Hq' & Hpq');
      [reflexivity|exact Hpc|unfold p0; simpl; lia|].
    rewrite Hrun. unfold p0. simpl. rewrite Hpc in Hall |- *.
    simpl in Hall |- *. rewrite <- !app_assoc.
    repeat split; assumption || reflexivity.
  - destruct Hpc as [_ Hn].
    destruct n as [|n]; [destruct Hn; congruence|].
    destruct fuel as [|fuel]; [lia|].
    erewrite run_consumer_step by apply consumer_step_log.
    destruct (run_rest clock fuel n p0
                ((lg ++ [ilog_shutdown_in_process])
                   ++ batch_log (S n) (queue_size p0) (done p0))
                pr sb true) as (p' & Hrun & Hq' & Hpq');
      [reflexivity|unfold p0; simpl; lia|].
    rewrite Hrun. unfold p0. simpl. rewrite <- !app_assoc.
    repeat split; assumption || reflexivity.
  - destruct Hpc as [_ Hn].
    destruct n as [|n]; [destruct Hn; congruence|].
    destruct (run_rest clock fuel n p0 (lg ++ [ilog_shutdown_in_process])
                pr sb true) as (p' & Hrun & Hq' & Hpq');
      [reflexivity|unfold p0; simpl; lia|].
    rewrite Hrun. unfold p0. simpl. rewrite <- !app_assoc.
    repeat split; assumption || reflexivity.
Qed.
End consumer_theorems.

Lemma fresh_initial : initial run.fresh.
Proof. repeat split. Qed.

(** One submission more in a run of the whole. *)
Ltac submitted_at now t :=
  eapply rtc_l;
  [apply (step_accepted now t);
   [vm_compute; reflexivity
   |first [left; vm_compute; reflexivity|right; vm_compute; discriminate]]|].

Lemma started_steps : rtc step run.fresh run.started.
Proof.
  unfold run.started.
  submitted_at 1 scenario.creation.
  etrans; [apply plugin_startup_steps; vm_compute; reflexivity|].
  apply run_consumer_steps.
Qed.

Lemma queued_steps : rtc step run.fresh run.queued.
Proof.
  unfold run.queued.
  etrans; [apply started_steps|].
  submitted_at 2 scenario.greetings.
  submitted_at 3 scenario.greetings.
  apply rtc_refl.
Qed.

Lemma taken_steps : rtc step run.fresh run.taken.
Proof.
  unfold run.taken.
  etrans; [apply started_steps|].
  submitted_at 2 scenario.greetings.
  etrans; [apply (run_consumer_steps (λ _, 3) 2)|].
  submitted_at 4 scenario.creation.
  apply rtc_refl.
Qed.

Lemma unbegun_steps : rtc step run.fresh run.unbegun.
Proof.
  unfold run.unbegun.
  submitted_at 1 scenario.creation.
  etrans; [apply plugin_startup_steps; vm_compute; reflexivity|].
  submitted_at 2 scenario.greetings.
  apply rtc_refl.
Qed.

Lemma consumer_not_begun_drops_queue_witness :
  reachable run.unbegun
  ∧ submitted run.unbegun = [scenario.creation; scenario.greetings]
  ∧ pc (run_consumer (λ _, 5) 8 (plugin_shutdown run.unbegun)) = crashed
  ∧ processed (run_consumer (λ _, 5) 8 (plugin_shutdown run.unbegun))
    = [scenario.creation]
  ∧ submitted (run_consumer (λ _, 5) 8 (plugin_shutdown run.unbegun))
    = [scenario.creation; scenario.greetings].
Proof.
  assert (Hreach : reachable run.unbegun).
  { exists run.fresh. split; [apply fresh_initial|apply unbegun_steps]. }
  split; [exact Hreach|]. split; [vm_compute; reflexivity|].
  destruct (consumer_not_begun_drops_queue (H := sample.codec) (λ _, 5) 8
              run.unbegun Hreach)
    as (_ & _ & Hcrash & Hp & _ & _ & _);
    [vm_compute; reflexivity|vm_compute; reflexivity|vm_compute; discriminate|].
  split; [apply Hcrash; lia|]. split; [exact Hp|vm_compute; reflexivity].
Defined.
Lemma shutdown_drains_witness :
  in_loop run.taken
  ∧ pc run.taken = processing 1
  ∧ pc (run_consumer (λ _, 5) 10 (plugin_shutdown run.taken)) = exited
  ∧ processed (run_consumer (λ _, 5) 10 (plugin_shutdown run.taken))
    = [scenario.creation; scenario.greetings; scenario.creation]
  ∧ log (run_consumer (λ _, 5) 10 (plugin_shutdown run.taken))
    = [wlog_queue_size 1; ilog_shutdown_in_process; wlog_queue_size 1;
       ilog_draining_queue 0; ilog_shutdown_gracefully].
Proof.
  assert (Hloop : in_loop run.taken).
  { right. right. exists 1%nat. vm_compute. reflexivity. }
  split; [exact Hloop|]. split; [vm_compute; reflexivity|].
  destruct (shutdown_drains (H := sample.codec) (λ _, 5) 10 run.taken)
    as (Hat & Hp & _ & _ & _ & Hl).
  { exists run.fresh. split; [apply fresh_initial|apply taken_steps]. }
  { vm_compute. reflexivity. }
  { vm_compute. reflexivity. }
  { exact Hloop. }
  { vm_compute. lia. }
  split; [exact Hat|]. split; [exact Hp|exact Hl].
Defined.

(** Target size 1, two events in the queue at the signal: both are
    processed and the consumer returns, but the batch is logged as a
    warning of its size, and no entry says that a queue of 2 was drained. *)
Lemma large_batch_not_logged_as_drained :
  reachable run.queued
  ∧ startup (my run.queued) = false
  ∧ done (my run.queued) = false
  ∧ pc run.queued = at_wait
  ∧ length (transaction_metadata_queue (my run.queued)) = 2%nat
  ∧ pc (run_consumer (λ _, 5) 8 (plugin_shutdown run.queued)) = exited
  ∧ ¬ draining_logged (λ _, 5) 8 run.queued.
Proof.
  split.
  { exists run.fresh. split; [apply fresh_initial|apply queued_steps]. }
  repeat split; try (vm_compute; reflexivity).
  unfold draining_logged. intros Hin. vm_compute in Hin.
  repeat (apply elem_of_cons in Hin as [Hin|Hin]; [discriminate|]).
  by apply elem_of_nil in Hin.
Qed.

(** * Further properties *)

(** ** Initialisation *)

Lemma coll_delete_eq (db : gmap string (list stored)) c :
  coll (delete c db) c = [].
Proof. unfold coll. by rewrite lookup_delete_eq. Qed.

Lemma coll_delete_ne (db : gmap string (list stored)) c c' :
  c ≠ c' → coll (delete c db) c' = coll db c'.
Proof. intros Hne. unfold coll. by rewrite lookup_delete_ne. Qed.

(** X1. [init] seeds the system account into an empty accounts collection
    and only there: with a record present it does nothing, a second run
    does nothing, and no other collection is touched. *)
Theorem init_seeds_once now now' p :
  init now' (init now p) = init now p
  ∧ (coll (mongo_conn p) accounts_col ≠ [] → init now p = p)
  ∧ (coll (mongo_conn p) accounts_col = [] →
     fields <$> coll (mongo_conn (init now p)) accounts_col
     = [account_doc system_account_name now])
  ∧ ∀ c, c ≠ accounts_col →
         coll (mongo_conn (init now p)) c = coll (mongo_conn p) c.
Proof.
  unfold init.
  destruct (coll (mongo_conn p) accounts_col) as [|s c] eqn:Hacc.
  - split; [simpl; by rewrite coll_insert_eq|].
    split; [done|]. split; [intros _; simpl; by rewrite coll_insert_eq|].
    intros c Hne. simpl. by rewrite coll_insert_ne.
  - split; [by rewrite Hacc|]. split; [done|]. split; [done|]. done.
Qed.

Lemma plugin_initialize_wiped now options db my uri :
  filter_mongodb_uri options = Some uri →
  replay_blockchain options || hard_replay_blockchain options
    || delete_all_blocks options = true →
  filter_mongodb_wipe options = true →
  ∃ p, plugin_initialize now options db my = Ok p
       ∧ fields <$> coll (mongo_conn p) accounts_col
         = [account_doc system_account_name now]
       ∧ coll (mongo_conn p) filter_col = []
       ∧ ∀ c, c ≠ accounts_col → c ≠ filter_col →
              coll (mongo_conn p) c = coll db c.
Proof.
  intros Huri Hreplay Hwipe. unfold plugin_initialize.
  rewrite Huri, Hreplay, Hwipe. simpl.
  eexists. split; [done|].
  unfold init, wipe_database. simpl.
  rewrite coll_delete_eq. simpl.
  split; [by rewrite coll_insert_eq|].
  split.
  - rewrite coll_insert_ne by apply accounts_not_filter.
    rewrite coll_delete_ne by apply accounts_not_filter.
    apply coll_delete_eq.
  - intros c Hna Hnf. rewrite coll_insert_ne by done.
    by rewrite !coll_delete_ne by done.
Qed.

(** X2. A replay, asked for by any of the three replay options: without
    the wipe flag initialisation fails before anything is set up; with it,
    whatever the database held, the accounts afterwards are the system
    account alone, the filter collection is empty, and the other
    collections are as they were. *)
Theorem initialize_on_replay now options db my uri :
  filter_mongodb_uri options = Some uri →
  replay_blockchain options || hard_replay_blockchain options
    || delete_all_blocks options = true →
  (filter_mongodb_wipe options = false →
   plugin_initialize now options db my = Throw fc_exception)
  ∧ (filter_mongodb_wipe options = true →
     ∃ p, plugin_initialize now options db my = Ok p
          ∧ fields <$> coll (mongo_conn p) accounts_col
            = [account_doc system_account_name now]
          ∧ coll (mongo_conn p) filter_col = []
          ∧ ∀ c, c ≠ accounts_col → c ≠ filter_col →
                 coll (mongo_conn p) c = coll db c).
Proof.
  intros Huri Hreplay. split.
  - intros Hwipe. unfold plugin_initialize. by rewrite Huri, Hreplay, Hwipe.
  - intros Hwipe. by apply plugin_initialize_wiped with uri.
Qed.

Lemma set_mongo_conn_same p : set_mongo_conn (mongo_conn p) p = p.
Proof. by destruct p. Qed.

Lemma init_frame now p : init now p = set_mongo_conn (mongo_conn (init now p)) p.
Proof.
  unfold init. destruct (coll (mongo_conn p) accounts_col); simpl; [done|].
  by rewrite set_mongo_conn_same.
Qed.

Lemma init_not_empty now p : coll (mongo_conn (init now p)) accounts_col ≠ [].
Proof.
  unfold init. destruct (coll (mongo_conn p) accounts_col) eqn:Hacc.
  - simpl. by rewrite coll_insert_eq.
  - by rewrite Hacc.
Qed.

(** X3. A successful initialisation of a new plugin with a URI: the plugin
    is configured from the options, output is enabled from the start
    exactly when the start block is 0, nothing is queued, the plugin is in
    its startup phase, and the accounts collection is not empty. *)
Theorem initialize_configures now options db uri p :
  filter_mongodb_uri options = Some uri →
  plugin_initialize now options db new_impl = Ok p →
  configured p = true
  ∧ queue_size p = filter_mongodb_queue_size options
  ∧ start_block_num p = filter_mongodb_block_start options
  ∧ (start_block_reached p = true ↔ filter_mongodb_block_start options = 0%N)
  ∧ filter_contract p = opt_filter_contract options
  ∧ startup p = true ∧ done p = false
  ∧ transaction_metadata_queue p = []
  ∧ transaction_metadata_process_queue p = []
  ∧ coll (mongo_conn p) accounts_col ≠ [].
Proof.
  intros Huri Hinit. unfold plugin_initialize in Hinit. rewrite Huri in Hinit.
  destruct (replay_blockchain options || hard_replay_blockchain options
            || delete_all_blocks options);
    destruct (filter_mongodb_wipe options); simpl in Hinit;
    try discriminate; injection Hinit as <-;
    (split; [by rewrite init_frame|]);
    (split; [by rewrite init_frame|]);
    (split; [by rewrite init_frame|]);
    (split; [rewrite init_frame; simpl; by case_decide|]);
    (split; [rewrite init_frame; simpl;
             by destruct (opt_filter_contract options)|]);
    (split; [by rewrite init_frame|]);
    (split; [by rewrite init_frame|]);
    (split; [by rewrite init_frame|]);
    (split; [by rewrite init_frame|]);
    apply init_not_empty.
Qed.

(** ** The registry *)

Lemma same_identity_refl s : same_identity s s.
Proof. done. Qed.

Lemma Forall2_same_identity_refl (c : list stored) : Forall2 same_identity c c.
Proof. induction c; constructor; [apply same_identity_refl|done]. Qed.

Lemma update_one_same_identity c i json now :
  Forall2 same_identity c
    (update_one c i [("abi", json); ("updatedAt", b_date now)]).
Proof.
  induction c as [|s c IH]; simpl; [constructor|].
  destruct (decide (oid s = i)).
  - constructor; [|apply Forall2_same_identity_refl].
    split; [done|]. simpl. by rewrite !doc_get_doc_set_ne by done.
  - constructor; [apply same_identity_refl|done].
Qed.

Lemma Forall2_same_identity_oids c c' :
  Forall2 same_identity c c' → oid <$> c = oid <$> c'.
Proof. induction 1 as [|s s' c c' [Ho _] _ IH]; simpl; [done|]. by f_equal. Qed.

Lemma same_identity_name_is n s s' :
  same_identity s s' → name_is n s = name_is n s'.
Proof. intros (_ & Hn & _). unfold name_is. by rewrite Hn. Qed.

Lemma Forall2_same_identity_named n c c' :
  Forall2 same_identity c c' →
  length (records_named n c) = length (records_named n c').
Proof.
  unfold records_named.
  induction 1 as [|s s' c c' Hs _ IH]; simpl; [done|].
  rewrite <- (same_identity_name_is n s s' Hs).
  destruct (name_is n s); simpl; by rewrite IH.
Qed.

Lemma insert_one_NoDup c d :
  NoDup (oid <$> c) → NoDup (oid <$> insert_one c d).
Proof.
  intros Hnd. unfold insert_one. rewrite fmap_app. apply list.NoDup_app.
  split; [done|]. split; [|apply list.NoDup_singleton].
  intros i (s & -> & Hin)%list_elem_of_fmap Hi.
  apply list_elem_of_singleton in Hi. simpl in Hi.
  apply fresh_oid_above in Hin. lia.
Qed.

Lemma find_account_none_named n c :
  find_account c n = None ↔ records_named n c = [].
Proof.
  unfold find_account, records_named.
  induction c as [|s c IH]; simpl; [done|].
  destruct (name_is n s); [split; discriminate|done].
Qed.

Lemma name_is_account_doc_other n n' now i :
  n ≠ n' → name_is n {| oid := i; fields := account_doc n' now |} = false.
Proof. intros Hne. unfold name_is. simpl. by rewrite bool_decide_eq_false_2. Qed.

Lemma find_account_app c c' n :
  find_account (c ++ c') n
  = match find_account c n with
    | Some d => Some d
    | None => find_account c' n
    end.
Proof.
  unfold find_account. induction c as [|s c IH]; simpl; [done|].
  by destruct (name_is n s).
Qed.

Section registry_extras.
Context `{Collaborators}.

Lemma update_account_unpack_failure now act accounts e :
  account act = system_account_name →
  (name act = newaccount ∧ unpack_newaccount (data act) = Throw e)
  ∨ (name act = setabi ∧ unpack_setabi (data act) = Throw e) →
  update_account now act accounts
  = (accounts, match e with fc_exception => Ok tt | _ => Throw e end).
Proof.
  intros Hacc Hcase. unfold update_account.
  rewrite decide_False by (intros Hne; by apply Hne).
  destruct Hcase as [[Hname Hna]|[Hname Hsa]].
  - rewrite decide_True by done. unfold catch_fc, bind, lift.
    rewrite Hna. by destruct e.
  - rewrite decide_False
      by (rewrite Hname; symmetry; apply newaccount_not_setabi).
    rewrite decide_True by done. unfold catch_fc, bind, lift.
    rewrite Hsa. by destruct e.
Qed.

(** X4. A payload of the system account that does not unpack as the
    native type of its action leaves the accounts as they are; the
    [fc] exception of the unpacking ends in [update_account], any other
    leaves it. *)
Theorem update_account_skips_undecodable now act accounts e :
  account act = system_account_name →
  (name act = newaccount ∧ unpack_newaccount (data act) = Throw e)
  ∨ (name act = setabi ∧ unpack_setabi (data act) = Throw e) →
  update_account now act accounts
  = (accounts, match e with fc_exception => Ok tt | _ => Throw e end).
Proof. apply update_account_unpack_failure. Qed.

(** X5. No [fc] exception leaves [update_account], whatever the action and
    the accounts. *)
Theorem update_account_never_raises_fc now act accounts :
  (update_account now act accounts).2 ≠ Throw fc_exception.
Proof.
  unfold update_account, catch_fc, bind, lift, ret, find_account_m,
    insert_one_m, update_one_m.
  repeat case_match; simplify_eq; done.
Qed.

(** X6. [update_account] keeps every record: the records that were there
    are there afterwards in the same order, each with its identifier, its
    name and its time of creation, followed by at most one new record. *)
Theorem update_account_keeps_records now act accounts :
  ∃ kept new,
    (update_account now act accounts).1 = kept ++ new
    ∧ Forall2 same_identity accounts kept
    ∧ (length new ≤ 1)%nat.
Proof.
  destruct (update_account_cases now act accounts)
    as [->|[(n & ->)|(n & i & json & ->)]].
  - exists accounts, []. rewrite app_nil_r.
    split; [done|]. split; [apply Forall2_same_identity_refl|simpl; lia].
  - eexists accounts, [_]. split; [done|].
    split; [apply Forall2_same_identity_refl|simpl; lia].
  - pose proof (update_one_same_identity (with_account now n accounts) i
                  json now) as Hall.
    revert Hall. generalize (update_one (with_account now n accounts) i
                               [("abi", json); ("updatedAt", b_date now)]).
    unfold with_account. destruct (find_account accounts n); intros r Hall.
    + exists r, []. rewrite app_nil_r. split; [done|].
      split; [done|simpl; lia].
    + unfold insert_one in Hall.
      apply Forall2_app_inv_l in Hall as (k1 & k2 & Hk1 & Hk2 & ->).
      exists k1, k2. split; [done|]. split; [done|].
      apply Forall2_length in Hk2. simpl in Hk2. lia.
Qed.

Lemma update_account_NoDup now act accounts :
  NoDup (oid <$> accounts) →
  NoDup (oid <$> (update_account now act accounts).1).
Proof.
  intros Hnd.
  destruct (update_account_cases now act accounts)
    as [->|[(n & ->)|(n & i & json & ->)]].
  - done.
  - by apply insert_one_NoDup.
  - rewrite <- (Forall2_same_identity_oids _ _
                  (update_one_same_identity (with_account now n accounts) i
                     json now)).
    by apply with_account_NoDup.
Qed.

(** X7. [update_account] keeps the identifiers of the store distinct. *)
Theorem update_account_keeps_oids_distinct now act accounts :
  NoDup (oid <$> accounts) →
  NoDup (oid <$> (update_account now act accounts).1).
Proof. apply update_account_NoDup. Qed.

(** X8. An action other than [newaccount] never gives a name a second
    record: where every name has at most one record before, every name has
    at most one afterwards. *)
Theorem update_account_keeps_names_unique now act accounts :
  name act ≠ newaccount →
  (∀ n, length (records_named n accounts) ≤ 1)%nat →
  ∀ n, (length (records_named n (update_account now act accounts).1) ≤ 1)%nat.
Proof.
  intros Hname Huniq n.
  destruct (decide (account act = system_account_name)) as [Hacc|Hacc];
    [|by rewrite update_account_other].
  destruct (decide (name act = setabi)) as [Hset|Hset].
  - destruct (unpack_setabi (data act)) as [sa|e] eqn:Hsa.
    + destruct (update_account_setabi now act sa accounts Hacc Hset Hsa)
        as (d & _ & ->).
      assert (Hwith : (length (records_named n
                         (with_account now (chain.account sa) accounts)) ≤ 1)%nat).
      { unfold with_account.
        destruct (find_account accounts (chain.account sa)) eqn:Hf; [done|].
        unfold records_named, insert_one. rewrite List.filter_app, length_app.
        simpl. destruct (decide (n = chain.account sa)) as [->|Hne].
        - apply find_account_none_named in Hf. unfold records_named in Hf.
          rewrite Hf, name_is_account_doc. simpl. lia.
        - rewrite name_is_account_doc_other by done. simpl.
          specialize (Huniq n). unfold records_named in Huniq. lia. }
      destruct (unpack_abi_def (chain.abi sa)) as [abi|]; [|done].
      destruct (abi_def_to_bson abi) as [json|]; [|done].
      by rewrite <- (Forall2_same_identity_named n _ _
                       (update_one_same_identity _ (oid d) json now)).
    + rewrite (update_account_unpack_failure now act accounts e); auto.
  - unfold update_account.
    rewrite decide_False by (intros Hne; by apply Hne).
    by rewrite !decide_False by done.
Qed.

(** X9. Of two [setabi] for one account the later one stays: with the
    identifiers distinct, after both the record found for the account holds
    the schema of the second and its time as [updatedAt]. *)
Theorem setabi_last_writer_wins now1 now2 act1 act2 sa1 sa2 abi2 json2
    accounts :
  NoDup (oid <$> accounts) →
  account act1 = system_account_name → name act1 = setabi →
  account act2 = system_account_name → name act2 = setabi →
  unpack_setabi (data act1) = Ok sa1 →
  unpack_setabi (data act2) = Ok sa2 →
  chain.account sa1 = chain.account sa2 →
  unpack_abi_def (chain.abi sa2) = Ok abi2 →
  abi_def_to_bson abi2 = Ok json2 →
  ∃ d, find_account
         (update_account now2 act2 (update_account now1 act1 accounts).1).1
         (chain.account sa1) = Some d
       ∧ doc_get "abi" (fields d) = Some json2
       ∧ doc_get "updatedAt" (fields d) = Some (b_date now2)
       ∧ length (records_named (chain.account sa1)
                   (update_account now2 act2
                      (update_account now1 act1 accounts).1).1)
         = length (records_named (chain.account sa1)
                     (update_account now1 act1 accounts).1).
Proof.
  intros Hnd Hacc1 Hname1 Hacc2 Hname2 Hsa1 Hsa2 Hsame Habi Hjson.
  pose proof (update_account_NoDup now1 act1 accounts Hnd)
    as Hnd1.
  destruct (attach_schema_sets_fields now2 act2 sa2 abi2 json2 _ Hnd1
              Hacc2 Hname2 Hsa2 Habi Hjson) as (d & Hd & Ha & Hu).
  rewrite Hsame. exists d. split; [done|]. split; [done|]. split; [done|].
  destruct (update_account_setabi now1 act1 sa1 accounts Hacc1 Hname1 Hsa1)
    as (d1 & _ & Heq1).
  assert (Hfound : ∃ d0, find_account (update_account now1 act1 accounts).1
                           (chain.account sa2) = Some d0).
  { destruct (find_account (update_account now1 act1 accounts).1
                (chain.account sa2)) eqn:Hf; [eauto|].
    exfalso. apply find_account_none_named in Hf.
    rewrite Heq1, <- Hsame in Hf.
    assert (Hlen : length (records_named (chain.account sa1)
                             (with_account now1 (chain.account sa1) accounts))
                   = 0%nat).
    { destruct (unpack_abi_def (chain.abi sa1)) as [abi|];
        [destruct (abi_def_to_bson abi) as [json|]|];
        try (by rewrite Hf).
      rewrite (Forall2_same_identity_named _ _ _
                 (update_one_same_identity _ (oid d1) json now1)).
      by rewrite Hf. }
    destruct (find_account_with_account now1 (chain.account sa1) accounts)
      as [d0 Hd0].
    assert (Hnone : find_account
                      (with_account now1 (chain.account sa1) accounts)
                      (chain.account sa1) = None).
    { apply find_account_none_named. by apply nil_length_inv. }
    congruence. }
  destruct Hfound as [d0 Hd0].
  destruct (update_account_setabi now2 act2 sa2
              (update_account now1 act1 accounts).1 Hacc2 Hname2 Hsa2)
    as (d2 & _ & ->).
  rewrite Habi, Hjson.
  rewrite <- (Forall2_same_identity_named _ _ _
                (update_one_same_identity _ (oid d2) json2 now2)).
  unfold with_account. by rewrite Hd0.
Qed.

Lemma update_account_newaccount_found now act na accounts :
  account act = system_account_name →
  name act = newaccount →
  unpack_newaccount (data act) = Ok na →
  ∃ d, find_account (update_account now act accounts).1 (chain.name na)
       = Some d
       ∧ (find_account accounts (chain.name na) = None →
          fields d = account_doc (chain.name na) now
          ∧ doc_get "abi" (fields d) = None).
Proof.
  intros Hacc Hname Hna.
  rewrite (update_account_newaccount now act na) by done. simpl.
  destruct (find_account accounts (chain.name na)) as [d|] eqn:Hf.
  - exists d. split; [|done].
    unfold insert_one. by rewrite find_account_app, Hf.
  - rewrite find_account_insert_one by done. eauto.
Qed.

(** X10. After a [newaccount] the registry has a record for the name: the
    lookup finds one, and where the name had none it finds the new record,
    of name and creation time and without a schema. *)
Theorem newaccount_then_find now act na accounts :
  account act = system_account_name →
  name act = newaccount →
  unpack_newaccount (data act) = Ok na →
  ∃ d, find_account (update_account now act accounts).1 (chain.name na)
       = Some d
       ∧ (find_account accounts (chain.name na) = None →
          fields d = account_doc (chain.name na) now
          ∧ doc_get "abi" (fields d) = None).
Proof. apply update_account_newaccount_found. Qed.
End registry_extras.

(** ** The decoder and the schema lookup *)

Section decoder_extras.
Context `{Collaborators}.
Context {abi_serializer : Type}.
Variable make_abi_serializer : abi_def → result abi_serializer.

(** An action without a fixed layout goes to the schema of its account. *)
Lemma add_data_generic act_doc accounts act :
  account act ≠ system_account_name
  ∨ (name act ≠ newaccount ∧ name act ≠ setabi) →
  add_data act_doc accounts act
  = match schema_decode act_doc accounts act with
    | Returned d => d
    | _ => append act_doc [hex_field act]
    end.
Proof.
  intros Hgen. unfold add_data, add_data_try.
  assert (Hsys : system_decode act_doc act = FellThrough).
  { unfold system_decode. destruct Hgen as [Hacc|[Hn Hs]].
    - by rewrite decide_False.
    - case_decide; [|done]. by rewrite !decide_False. }
  rewrite Hsys. by destruct (schema_decode act_doc accounts act).
Qed.


(** X11. An action whose account has no record, and that is not one of the
    system account's two actions with a fixed layout, gets the hex field,
    whatever its bytes. *)
Theorem add_data_without_record act_doc accounts act :
  find_account accounts (account act) = None →
  account act ≠ system_account_name
  ∨ (name act ≠ newaccount ∧ name act ≠ setabi) →
  add_data act_doc accounts act = append act_doc [hex_field act].
Proof.
  intros Hnone Hgen. rewrite add_data_generic by done.
  unfold schema_decode. by rewrite Hnone.
Qed.

(** X12. The system account's [newaccount] and [setabi] are decoded by
    their fixed layout whatever the registry holds, a schema or none: the
    payload that unpacks and renders is the ["data"] field. *)
Theorem system_actions_decode_without_schema act_doc accounts act :
  account act = system_account_name →
  (∀ na v,
     name act = newaccount →
     unpack_newaccount (data act) = Ok na →
     newaccount_to_bson na = Ok v →
     add_data act_doc accounts act = append act_doc [("data", v)])
  ∧ (∀ sa abi json,
       name act = setabi →
       unpack_setabi (data act) = Ok sa →
       unpack_abi_def (chain.abi sa) = Ok abi →
       abi_def_to_bson abi = Ok json →
       add_data act_doc accounts act
       = append act_doc
           [("data", b_document [("account", b_utf8 (chain.account sa));
                                 ("abi_def", json)])]).
Proof.
  intros Hacc. split.
  - intros na v Hname Hna Hv. unfold add_data, add_data_try, system_decode.
    rewrite decide_True by done. rewrite decide_True by done.
    by rewrite Hna, Hv.
  - intros sa abi json Hname Hsa Habi Hjson.
    unfold add_data, add_data_try, system_decode.
    rewrite decide_True by done.
    rewrite decide_False
      by (rewrite Hname; symmetry; apply newaccount_not_setabi).
    rewrite decide_True by done. by rewrite Hsa, Habi, Hjson.
Qed.


(** X14. The lookup of a schema after it was set: after a [setabi] for a
    name that is not empty, with the identifiers of the store distinct,
    [get_abi_serializer] reads the stored rendering back; it answers with
    the serializer of the schema read, and with nothing when the rendering
    does not read back or the serializer cannot be built. *)
Theorem setabi_then_get_abi_serializer now act sa abi json accounts :
  NoDup (oid <$> accounts) →
  account act = system_account_name →
  name act = setabi →
  unpack_setabi (data act) = Ok sa →
  unpack_abi_def (chain.abi sa) = Ok abi →
  abi_def_to_bson abi = Ok json →
  chain.account sa ≠ "" →
  get_abi_serializer abi_serializer make_abi_serializer (chain.account sa)
    (update_account now act accounts).1
  = match abi_def_of_bson json with
    | Ok abi' =>
        match make_abi_serializer abi' with
        | Ok abis => Some abis
        | Throw _ => None
        end
    | Throw _ => None
    end.
Proof.
  intros Hnd Hacc Hname Hsa Habi Hjson Hgood.
  destruct (attach_schema_sets_fields now act sa abi json accounts Hnd
              Hacc Hname Hsa Habi Hjson) as (d & Hd & Ha & _).
  unfold get_abi_serializer, good.
  rewrite bool_decide_eq_false_2 by done. simpl.
  by rewrite Hd, Ha.
Qed.


End decoder_extras.

(** ** The transaction processor *)

Lemma incr_int32_small n : -2 ^ 31 ≤ n + 1 < 2 ^ 31 → incr_int32 n = n + 1.
Proof. intros Hn. unfold incr_int32. rewrite Z.mod_small; lia. Qed.

Lemma doc_get_app_l k (d1 d2 : list (string * bson)) v :
  doc_get k d1 = Some v → doc_get k (d1 ++ d2) = Some v.
Proof.
  induction d1 as [|[k' v'] d1 IH]; simpl; [done|].
  destruct (decide (k = k')); [done|apply IH].
Qed.

Lemma prefix_of_fmap {A B} (f : A → B) (l1 l2 : list A) :
  l1 `prefix_of` l2 → (f <$> l1) `prefix_of` (f <$> l2).
Proof. intros [k ->]. exists (f <$> k). apply fmap_app. Qed.

Section processor_extras.
Context `{Collaborators}.

Lemma process_action_ext p p' now trx_id_str act cfa st :
  start_block_reached p = start_block_reached p' →
  (∀ a, a ∈ filter_contract p ↔ a ∈ filter_contract p') →
  process_action p now trx_id_str act cfa st
  = process_action p' now trx_id_str act cfa st.
Proof.
  intros Hstart Hfilter. unfold process_action. rewrite Hstart.
  by rewrite (bool_decide_ext _ _ (Hfilter (account act))).
Qed.

Lemma run_actions_ext p p' now trx_id_str acts st :
  start_block_reached p = start_block_reached p' →
  (∀ a, a ∈ filter_contract p ↔ a ∈ filter_contract p') →
  run_actions p now trx_id_str acts st = run_actions p' now trx_id_str acts st.
Proof.
  intros Hstart Hfilter. revert st.
  induction acts as [|act acts IH]; intros st; [done|].
  rewrite !run_actions_cons.
  by rewrite (process_action_ext p p') by done.
Qed.

Lemma process_accepted_transaction_ext now t p p' :
  same_processing p p' →
  same_processing (process_accepted_transaction now t p)
    (process_accepted_transaction now t p').
Proof.
  intros (Hstart & Hfilter & Hconn). unfold process_accepted_transaction.
  rewrite (_process_accepted_transaction_frame now t p),
    (_process_accepted_transaction_frame now t p').
  split; [done|]. split; [done|]. simpl.
  rewrite !_process_accepted_transaction_conn, !process_actions_run.
  unfold no_captures. rewrite Hconn, Hstart.
  by rewrite (run_actions_ext p p') by done.
Qed.

(** X16. What processing does to the store depends on the plugin only
    through the gate, the store and the filter as a set: the order and the
    repetitions of the filter's entries, the target size of the queue, the
    queues and the flags make no difference. *)
Theorem processing_depends_on_gate_filter_store events p p' :
  same_processing p p' →
  mongo_conn (process_all events p) = mongo_conn (process_all events p').
Proof.
  revert p p'. induction events as [|[now t] events IH]; intros p p' Hsame.
  - by destruct Hsame as (_ & _ & ?).
  - simpl. apply IH. by apply process_accepted_transaction_ext.
Qed.

(** The loop, with output enabled, in terms of [action_docs]. *)
Lemma run_actions_docs p now trx_id_str acts st :
  start_block_reached p = true →
  action_array (run_actions p now trx_id_str acts st)
  = action_array st
    ++ (b_document <$> action_docs now trx_id_str acts
                         (coll (conn st) accounts_col) (act_num st))
  ∧ bulk_filter (run_actions p now trx_id_str acts st)
    = bulk_filter st
      ++ selected p acts (action_docs now trx_id_str acts
                            (coll (conn st) accounts_col) (act_num st)).
Proof.
  intros Hyes. revert st.
  induction acts as [|act acts IH]; intros st.
  - simpl. by rewrite !app_nil_r.
  - rewrite run_actions_cons.
    destruct (IH (process_action p now trx_id_str act false st)) as [-> ->].
    unfold process_action. rewrite Hyes. simpl.
    rewrite coll_insert_eq, selected_cons.
    split; [by rewrite <- app_assoc|].
    case_bool_decide; by rewrite <- ?app_assoc.
Qed.

Lemma action_docs_length now trx_id_str acts accounts n :
  length (action_docs now trx_id_str acts accounts n) = length acts.
Proof.
  revert accounts n. induction acts as [|act acts IH]; intros accounts n;
    simpl; [done|]. by rewrite IH.
Qed.

Lemma action_docs_lookup now trx_id_str acts accounts n i act :
  0 ≤ n → n + Z.of_nat (length acts) ≤ 2 ^ 31 →
  acts !! i = Some act →
  ∃ accounts',
    action_docs now trx_id_str acts accounts n !! i
    = Some (add_data (action_header (n + Z.of_nat i) trx_id_str false act)
              accounts' act).
Proof.
  revert accounts n i. induction acts as [|a acts IH];
    intros accounts n i Hn Hlen Hi; [done|].
  change (length (a :: acts)) with (S (length acts)) in Hlen.
  rewrite Nat2Z.inj_succ in Hlen.
  destruct i as [|i]; simpl in Hi |- *.
  - injection Hi as ->. eexists. by rewrite Z.add_0_r.
  - apply lookup_lt_Some in Hi as Hlt.
    assert (Hincr : incr_int32 n = n + 1)
      by (apply incr_int32_small; lia).
    destruct (IH (update_account now a accounts).1 (incr_int32 n) i)
      as [accounts' Hdoc]; [lia|lia|done|].
    exists accounts'. rewrite Hdoc, Hincr. do 3 f_equal. lia.
Qed.

Lemma add_data_header_fields n trx_id_str cfa accounts act :
  doc_get "action_num"
    (add_data (action_header n trx_id_str cfa act) accounts act)
  = Some (b_int32 n)
  ∧ doc_get "trx_id"
      (add_data (action_header n trx_id_str cfa act) accounts act)
    = Some (b_utf8 trx_id_str)
  ∧ doc_get "account"
      (add_data (action_header n trx_id_str cfa act) accounts act)
    = Some (b_utf8 (account act))
  ∧ doc_get "name"
      (add_data (action_header n trx_id_str cfa act) accounts act)
    = Some (b_utf8 (name act)).
Proof.
  destruct (add_data_shape (action_header n trx_id_str cfa act) accounts act)
    as [[v ->]| ->]; unfold append;
    repeat split; by apply doc_get_app_l.
Qed.

(** X17. With output enabled and fewer than 2^31 actions, the documents of
    a transaction are numbered from 0 in the order of its actions: the
    i-th holds [action_num] i, the transaction's id, and the account and
    name of the i-th action. The array of the transaction document holds
    all of them, and the filter collection receives those of the accounts
    in the filter, in that order. *)
Theorem action_documents_numbered now t p :
  start_block_reached p = true →
  Z.of_nat (length (actions (trx t))) ≤ 2 ^ 31 →
  ∃ docs,
    length docs = length (actions (trx t))
    ∧ action_array (process_actions p now t) = b_document <$> docs
    ∧ coll (mongo_conn (_process_accepted_transaction now t p)) filter_col
      = insert_many (coll (mongo_conn p) filter_col)
          (selected p (actions (trx t)) docs)
    ∧ ∀ i act, actions (trx t) !! i = Some act →
        ∃ d, docs !! i = Some d
             ∧ doc_get "action_num" d = Some (b_int32 (Z.of_nat i))
             ∧ doc_get "trx_id" d = Some (b_utf8 (id t))
             ∧ doc_get "account" d = Some (b_utf8 (account act))
             ∧ doc_get "name" d = Some (b_utf8 (name act)).
Proof.
  intros Hyes Hlen.
  destruct (run_actions_docs p now (id t) (actions (trx t)) (no_captures p)
              Hyes) as [Harr Hbulk].
  simpl in Harr, Hbulk.
  set (docs := action_docs now (id t) (actions (trx t))
                 (coll (mongo_conn p) accounts_col) 0) in *.
  exists docs. split; [apply action_docs_length|].
  split; [by rewrite process_actions_run|]. split.
  - destruct (run_actions_reached p now (id t) (actions (trx t))
                (no_captures p) Hyes) as (_ & _ & _ & _ & Hflag).
    destruct (run_actions_conn p now (id t) (actions (trx t)) (no_captures p))
      as [_ Hc].
    rewrite _process_accepted_transaction_conn, process_actions_run, Hyes.
    rewrite <- Hbulk.
    set (st := run_actions p now (id t) (actions (trx t)) (no_captures p)) in *.
    assert (Hf : coll (conn st) filter_col = coll (mongo_conn p) filter_col).
    { apply Hc. intros Heq. by apply accounts_not_filter. }
    simpl. destruct (actions_to_write st && filter_to_write st) eqn:Hw.
    + unfold execute. by rewrite coll_insert_eq, Hf.
    + rewrite Hflag by done. by rewrite Hf.
  - intros i act Hi.
    destruct (action_docs_lookup now (id t) (actions (trx t))
                (coll (mongo_conn p) accounts_col) 0 i act) as [accounts' Hd];
      [lia|lia|done|].
    eexists. split; [exact Hd|]. rewrite Z.add_0_l.
    apply add_data_header_fields.
Qed.

(** X18. A transaction without actions changes nothing: the plugin and its
    store are as before, and the transaction document is empty. *)
Theorem empty_transaction_no_effect now t p :
  actions (trx t) = [] →
  _process_accepted_transaction now t p = p ∧ trans_doc p now t = [].
Proof.
  intros Hnil. unfold _process_accepted_transaction, trans_doc,
    process_actions. rewrite Hnil. simpl.
  split; [|done]. rewrite set_mongo_conn_same. by destruct (start_block_reached p).
Qed.

Lemma registry_after_prefix now acts accounts :
  (oid <$> accounts) `prefix_of` (oid <$> registry_after now acts accounts).
Proof.
  revert accounts. induction acts as [|act acts IH]; intros accounts;
    simpl; [done|].
  etrans; [|apply IH].
  destruct (update_account_cases now act accounts)
    as [->|[(n & ->)|(n & i & json & ->)]].
  - done.
  - unfold insert_one. rewrite fmap_app. by eexists.
  - rewrite <- (Forall2_same_identity_oids _ _
                  (update_one_same_identity (with_account now n accounts) i
                     json now)).
    unfold with_account. destruct (find_account accounts n); [done|].
    unfold insert_one. rewrite fmap_app. by eexists.
Qed.

Lemma filter_after_prefix now t p :
  coll (mongo_conn p) filter_col
  `prefix_of` coll (mongo_conn (_process_accepted_transaction now t p))
                filter_col.
Proof.
  destruct (start_block_reached p) eqn:Hstart.
  - destruct (filter_after_reached now t p Hstart) as (docs & _ & ->).
    destruct (insert_many_app (coll (mongo_conn p) filter_col)
                (selected p (actions (trx t)) docs)) as (new & -> & _).
    by eexists.
  - by rewrite filter_after_not_reached.
Qed.

(** X19. Processing only adds to the store: after any events the filter
    collection begins with the documents it had, and the accounts
    collection with records of the identifiers it had, in their order. *)
Theorem processing_only_adds events p :
  coll (mongo_conn p) filter_col
  `prefix_of` coll (mongo_conn (process_all events p)) filter_col
  ∧ (oid <$> coll (mongo_conn p) accounts_col)
    `prefix_of` (oid <$> coll (mongo_conn (process_all events p)) accounts_col).
Proof.
  revert p. induction events as [|[now t] events IH]; intros p; [done|].
  simpl. destruct (IH (process_accepted_transaction now t p)) as [Hf Ha].
  unfold process_all in *. unfold process_accepted_transaction in *. split.
  - etrans; [apply (filter_after_prefix now t)|done].
  - etrans; [|exact Ha]. rewrite accounts_after. apply registry_after_prefix.
Qed.

(** X20. The registry does not depend on the gate or on the filter: two
    plugins that start from the same accounts have the same accounts after
    the same events, whether or not either writes any action. *)
Theorem registry_independent_of_output events p p' :
  coll (mongo_conn p) accounts_col = coll (mongo_conn p') accounts_col →
  coll (mongo_conn (process_all events p)) accounts_col
  = coll (mongo_conn (process_all events p')) accounts_col.
Proof.
  revert p p'. induction events as [|[now t] events IH]; intros p p' Hsame;
    [done|].
  simpl. apply IH. unfold process_accepted_transaction.
  by rewrite !accounts_after, Hsame.
Qed.
End processor_extras.

(** ** The queue and the consumer *)

(** X21. A call of [queue] waits exactly when the queue is longer than the
    target size; a queue of just the target size takes the event at once.
    Either way the event ends up last in the queue. *)
Theorem queue_blocks_above_target {Entry : Type} (q : list Entry) (e : Entry)
    (queue_size : N) :
  ((queue q e queue_size).1 = None ↔ (length q ≤ N.to_nat queue_size)%nat)
  ∧ (queue q e queue_size).2 = q ++ [e].
Proof.
  split; [|done]. unfold queue, queue_sleep. simpl.
  case_bool_decide; split; try done; lia.
Qed.

Lemma process_all_snoc `{Collaborators} events now t p :
  process_all (events ++ [(now, t)]) p
  = process_accepted_transaction now t (process_all events p).
Proof. unfold process_all. by rewrite fold_left_app. Qed.

Lemma same_processing_refl p : same_processing p p.
Proof. done. Qed.

Section consumer_extras.
Context `{Collaborators}.

(** X22. During startup every event is processed in the call that submits
    it: as long as the startup flag is set, all that was submitted has been
    processed, nothing is queued and no shutdown is signalled; the
    consumer's thread, which [plugin_startup] creates before it clears the
    flag, has taken nothing: it is not created, not yet running, or at its
    wait. *)
Theorem startup_processes_inline s :
  reachable s →
  startup (my s) = true →
  processed s = submitted s
  ∧ transaction_metadata_queue (my s) = []
  ∧ transaction_metadata_process_queue (my s) = []
  ∧ done (my s) = false
  ∧ (pc s = not_started ∨ pc s = created
     ∨ pc s = at_wait ∨ pc s = entering_wait).
Proof.
  intros (Hall & Hdone & Hstart & Hreset & Hpc)%reachable_consistent Hst.
  destruct (Hstart Hst) as [Hq Hpq].
  rewrite Hq, Hpq, !app_nil_r in Hall.
  assert (Hd : done (my s) = false).
  { destruct (done (my s)); [|done]. destruct Hdone; congruence. }
  repeat split; try done.
  destruct (pc s); pc_facts.
Qed.

(** X23. The consumer returns only after the shutdown signal, and then
    with nothing left: in every state with the consumer past its loop,
    [done] is set and the queue and the batch are empty. *)
Theorem consumer_exits_only_when_done s :
  reachable s →
  pc s = exited →
  done (my s) = true
  ∧ transaction_metadata_queue (my s) = []
  ∧ transaction_metadata_process_queue (my s) = [].
Proof.
  intros (_ & _ & _ & _ & Hpc)%reachable_consistent Hat.
  by rewrite Hat in Hpc.
Qed.

Lemma consumer_step_sequential now s s' p0 :
  consumer_step now s = Some s' →
  (∃ times, length times = length (processed s)
            ∧ same_processing (my s)
                (process_all (zip times (processed s)) p0)) →
  ∃ times, length times = length (processed s')
           ∧ same_processing (my s')
               (process_all (zip times (processed s')) p0).
Proof.
  unfold consumer_step. intros Hstep (times & Hlen & Hsame).
  destruct (pc s) as [| | | | |n|n| |]; try discriminate.
  - destruct (my_reset s); injection Hstep as <-; eauto.
  - destruct (transaction_metadata_queue (my s)).
    + destruct (done (my s)); [|discriminate]. injection Hstep as <-. eauto.
    + injection Hstep as <-. eauto.
  - destruct (done (my s)); injection Hstep as <-; eauto.
  - injection Hstep as <-. eauto.
  - destruct (transaction_metadata_process_queue (my s)) as [|t rest].
    + destruct (_ && _); injection Hstep as <-; eauto.
    + injection Hstep as <-. simpl. exists (times ++ [now]).
      split; [rewrite !length_app; simpl; lia|].
      rewrite zip_with_app by done. simpl. rewrite process_all_snoc.
      by apply (process_accepted_transaction_ext now t) in Hsame.
Qed.

(** X24. The store is that of the events processed one after the other:
    however submissions and the consumer's steps interleave, in every state
    reached from an initial one the store is what processing the events of
    the trace in order, each at some time, makes of the initial store. *)
Theorem store_is_sequential s0 s :
  initial s0 →
  rtc step s0 s →
  ∃ times,
    length times = length (processed s)
    ∧ mongo_conn (my s)
      = mongo_conn (process_all (zip times (processed s)) (my s0)).
Proof.
  intros Hinit Hsteps.
  cut (∃ times, length times = length (processed s)
                ∧ same_processing (my s)
                    (process_all (zip times (processed s)) (my s0))).
  { intros (times & Hlen & _ & _ & Hconn). eauto. }
  revert s Hsteps.
  apply (rtc_ind_r (λ s, ∃ times, length times = length (processed s)
                          ∧ same_processing (my s)
                              (process_all (zip times (processed s)) (my s0)))).
  - destruct Hinit as (_ & _ & _ & _ & _ & Hp & _).
    exists []. rewrite Hp. split; [done|]. apply same_processing_refl.
  - intros s1 s2 _ Hstep (times & Hlen & Hsame).
    destruct Hstep as [now t s1 Hr Hg| s1 Hr Hat Hc | s1 Hr Hat | s1 Hg
                      | s1 Hr Hd | now s1 s2 Hstep | s1 Hat Hq Hd | s1 Hat].
    + unfold accepted_transaction. destruct (startup (my s1)).
      * simpl. exists (times ++ [now]).
        split; [rewrite !length_app; simpl; lia|].
        rewrite zip_with_app by done. simpl. rewrite process_all_snoc.
        by apply (process_accepted_transaction_ext now t) in Hsame.
      * simpl. eauto.
    + simpl. eauto.
    + simpl. eauto.
    + simpl. eauto.
    + unfold signal_shutdown. destruct (startup (my s1)); simpl; eauto.
    + eapply consumer_step_sequential; eauto.
    + simpl. eauto.
    + simpl. eauto.
Qed.

(** X26. Order, and no event twice. In every state the plugin and its
    consumer reach, whatever the interleaving of submissions, swaps and
    processing, the events processed so far followed by the batch and by
    the queue are the events submitted, in the order of submission; so the
    events processed are the first of those submitted, in their order.
    When the consumer has returned, every submitted event has been
    processed. *)
Theorem consumer_order s :
  reachable s →
  processed s ++ transaction_metadata_process_queue (my s)
    ++ transaction_metadata_queue (my s) = submitted s
  ∧ processed s `prefix_of` submitted s
  ∧ (pc s = exited → processed s = submitted s).
Proof.
  intros (Hall & _ & _ & _ & Hpc)%reachable_consistent.
  split; [done|]. split.
  - rewrite <- Hall. by eexists.
  - intros Hat. rewrite Hat in Hpc. destruct Hpc as (_ & Hq & Hpq).
    by rewrite Hq, Hpq, !app_nil_r in Hall.
Qed.

(** X27. A signal that falls between the consumer's test and its wait is
    lost. The consumer has found the queue empty and [done] unset, and has
    not yet called [condition.wait]; [plugin_shutdown] sets [done] and
    notifies, without the lock, when nobody waits. The consumer then waits
    with [done] set: it is blocked, it has not returned, and the graceful
    shutdown is not logged, although nothing is left to process. Only a
    wake-up without notification would let it go on. *)
Theorem signal_before_wait_is_missed clock fuel s :
  reachable s →
  my_reset s = false →
  startup (my s) = false →
  pc s = entering_wait →
  (1 ≤ fuel)%nat →
  rtc step s (run_consumer clock fuel (plugin_shutdown s))
  ∧ pc (run_consumer clock fuel (plugin_shutdown s)) = missed
  ∧ (∀ now,
       consumer_step now (run_consumer clock fuel (plugin_shutdown s)) = None)
  ∧ done (my (run_consumer clock fuel (plugin_shutdown s))) = true
  ∧ processed (run_consumer clock fuel (plugin_shutdown s)) = submitted s
  ∧ log (run_consumer clock fuel (plugin_shutdown s))
    = log s ++ [ilog_shutdown_in_process].
Proof.
  intros Hreach Hr Hst Hat Hfuel.
  pose proof (reachable_consistent s Hreach) as Hinv.
  pose proof (consistent_live s Hinv Hr) as Hd.
  destruct Hinv as (Hall & _ & _ & _ & Hpc).
  split.
  { etrans; [apply plugin_shutdown_steps; auto|apply run_consumer_steps]. }
  rewrite Hat in Hpc. destruct Hpc as [Hq Hpq].
  rewrite Hq, Hpq, !app_nil_r in Hall.
  destruct s as [p at_ lg pr sb rl]. simpl in *. subst at_.
  unfold plugin_shutdown, signal_shutdown, reset_my. simpl. rewrite Hst.
  destruct fuel as [|fuel]; [lia|]. simpl.
  rewrite run_consumer_blocked by done. simpl. repeat split; done.
Qed.
End consumer_extras.

(** ** Executions of the further properties *)

Lemma initialize_on_replay_witness :
  plugin_initialize 9 (cases.replay false) cases.used new_impl
  = Throw fc_exception
  ∧ ∃ p, plugin_initialize 9 (cases.replay true) cases.used new_impl = Ok p
         ∧ fields <$> coll (mongo_conn p) accounts_col
           = [account_doc system_account_name 9]
         ∧ coll (mongo_conn p) filter_col = []
         ∧ coll (mongo_conn p) "notes" = coll cases.used "notes".
Proof.
  split.
  - destruct (initialize_on_replay 9 (cases.replay false) cases.used
                new_impl _ eq_refl eq_refl) as [Hfail _].
    by apply Hfail.
  - destruct (initialize_on_replay 9 (cases.replay true) cases.used
                new_impl _ eq_refl eq_refl) as [_ Hok].
    destruct (Hok eq_refl) as (p & Hp & Ha & Hf & Ho).
    exists p. split; [done|]. split; [done|]. split; [done|].
    by apply Ho.
Defined.

Lemma initialize_configures_witness :
  start_block_reached (scenario.plugin 3) = true ↔ 3%N = 0%N.
Proof.
  apply (initialize_configures 0 (scenario.options 3) ∅ _ (scenario.plugin 3)
           eq_refl eq_refl).
Defined.

Lemma update_account_skips_undecodable_witness :
  update_account 7 cases.bad_newaccount cases.accounts
  = (cases.accounts, Ok tt).
Proof.
  apply (update_account_skips_undecodable (H := sample.codec) 7
           cases.bad_newaccount cases.accounts fc_exception eq_refl).
  left. split; reflexivity.
Defined.

Lemma used_accounts_distinct : NoDup (oid <$> cases.accounts).
Proof. compute_done. Qed.

Lemma update_account_keeps_oids_distinct_witness :
  NoDup (oid <$> (update_account 7 sample.good_setabi_bob cases.accounts).1).
Proof.
  apply (update_account_keeps_oids_distinct (H := sample.codec)).
  apply used_accounts_distinct.
Defined.

Lemma update_account_keeps_names_unique_witness :
  (length (records_named "bob"
             (update_account 8 sample.good_setabi_bob
                (update_account 7 sample.good_setabi_bob []).1).1) ≤ 1)%nat.
Proof.
  apply (update_account_keeps_names_unique (H := sample.codec)).
  - discriminate.
  - apply (update_account_keeps_names_unique (H := sample.codec)).
    + discriminate.
    + intros n. simpl. lia.
Defined.

Lemma setabi_last_writer_wins_witness :
  ∃ d, find_account
         (update_account 8 cases.second_setabi_bob
            (update_account 7 sample.good_setabi_bob cases.accounts).1).1
         "bob" = Some d
       ∧ doc_get "abi" (fields d)
         = Some (b_document [("actions", b_array [b_utf8 "yo"])])
       ∧ doc_get "updatedAt" (fields d) = Some (b_date 8).
Proof.
  destruct (setabi_last_writer_wins (H := sample.codec) 7 8
              sample.good_setabi_bob cases.second_setabi_bob
              {| chain.account := "bob"; chain.abi := x01 :: sample.raw "hi" |}
              {| chain.account := "bob"; chain.abi := x01 :: sample.raw "yo" |}
              ["yo"] _ cases.accounts used_accounts_distinct
              eq_refl eq_refl eq_refl eq_refl eq_refl eq_refl eq_refl
              eq_refl eq_refl) as (d & Hd & Ha & Hu & _).
  by exists d.
Defined.

Lemma newaccount_then_find_witness :
  ∃ d, find_account (update_account 7 sample.new_alice []).1 "alice" = Some d
       ∧ fields d = account_doc "alice" 7.
Proof.
  destruct (newaccount_then_find (H := sample.codec) 7 sample.new_alice
              {| chain.creator := system_account_name; chain.name := "alice" |}
              [] eq_refl eq_refl eq_refl) as (d & Hd & Hnew).
  exists d. split; [done|]. by apply Hnew.
Defined.

Lemma add_data_without_record_witness :
  add_data [] [] sample.hi_bob = [hex_field sample.hi_bob].
Proof.
  apply (add_data_without_record (H := sample.codec) [] [] sample.hi_bob
           eq_refl).
  left. discriminate.
Defined.

Lemma system_actions_decode_without_schema_witness :
  add_data [] [] sample.new_alice
  = [("data", b_document [("creator", b_utf8 "eosio");
                          ("name", b_utf8 "alice")])]
  ∧ add_data [] [] sample.good_setabi_bob
    = [("data", b_document
                  [("account", b_utf8 "bob");
                   ("abi_def",
                     b_document [("actions", b_array [b_utf8 "hi"])])])].
Proof.
  split.
  - destruct (system_actions_decode_without_schema (H := sample.codec) [] []
                sample.new_alice eq_refl) as [Hnew _].
    apply (Hnew {| chain.creator := system_account_name;
                   chain.name := "alice" |}); reflexivity.
  - destruct (system_actions_decode_without_schema (H := sample.codec) [] []
                sample.good_setabi_bob eq_refl) as [_ Hset].
    apply (Hset {| chain.account := "bob";
                   chain.abi := x01 :: sample.raw "hi" |} ["hi"]);
      reflexivity.
Defined.


Lemma setabi_then_get_abi_serializer_witness :
  get_abi_serializer (list string) cases.make_abi_serializer "bob"
    (update_account 7 sample.good_setabi_bob cases.accounts).1
  = Some ["hi"].
Proof.
  apply (setabi_then_get_abi_serializer (H := sample.codec)
           cases.make_abi_serializer 7 sample.good_setabi_bob
           {| chain.account := "bob"; chain.abi := x01 :: sample.raw "hi" |}
           ["hi"] _ cases.accounts used_accounts_distinct
           eq_refl eq_refl eq_refl eq_refl eq_refl).
  discriminate.
Defined.


Lemma same_filter_same_processing :
  same_processing (scenario.plugin 0) cases.same_filter.
Proof.
  split; [done|]. split; [|done]. intros a.
  change (a ∈ ["alice"] ↔ a ∈ ["alice"; "alice"]).
  rewrite !elem_of_cons. tauto.
Qed.

Lemma processing_depends_on_gate_filter_store_witness :
  mongo_conn (process_all [(5, scenario.creation); (9, scenario.greetings)]
                (scenario.plugin 0))
  = mongo_conn (process_all [(5, scenario.creation); (9, scenario.greetings)]
                  cases.same_filter).
Proof.
  apply (processing_depends_on_gate_filter_store (H := sample.codec)).
  apply same_filter_same_processing.
Defined.

Lemma action_documents_numbered_witness :
  ∃ docs,
    action_array (process_actions (scenario.plugin 0) 7 scenario.greetings)
    = b_document <$> docs
    ∧ ∃ d, docs !! 1%nat = Some d
           ∧ doc_get "action_num" d = Some (b_int32 1)
           ∧ doc_get "account" d = Some (b_utf8 "bob").
Proof.
  destruct (action_documents_numbered (H := sample.codec) 7
              scenario.greetings (scenario.plugin 0) eq_refl)
    as (docs & _ & Harr & _ & Hnum).
  { vm_compute. discriminate. }
  exists docs. split; [done|].
  destruct (Hnum 1%nat sample.hi_bob eq_refl) as (d & Hd & Hn & _ & Ha & _).
  by exists d.
Defined.

Lemma empty_transaction_no_effect_witness :
  _process_accepted_transaction 7 cases.no_actions (scenario.plugin 0)
  = scenario.plugin 0.
Proof.
  apply (empty_transaction_no_effect (H := sample.codec) 7 cases.no_actions
           (scenario.plugin 0) eq_refl).
Defined.

Lemma registry_independent_of_output_witness :
  coll (mongo_conn (process_all [(5, scenario.creation)] (scenario.plugin 0)))
    accounts_col
  = coll (mongo_conn (process_all [(5, scenario.creation)] (scenario.plugin 3)))
      accounts_col.
Proof.
  apply (registry_independent_of_output (H := sample.codec)). reflexivity.
Defined.

Lemma interleaved_steps : rtc step run.fresh run.interleaved.
Proof.
  unfold run.interleaved.
  etrans; [apply taken_steps|].
  apply plugin_shutdown_steps; [right|]; vm_compute; reflexivity.
Qed.

Lemma stopped_steps : rtc step run.fresh cases.stopped.
Proof.
  unfold cases.stopped.
  etrans; [apply queued_steps|].
  etrans; [|apply run_consumer_steps].
  apply plugin_shutdown_steps; [right|]; vm_compute; reflexivity.
Qed.

Lemma startup_processes_inline_witness :
  processed (create_thread (accepted_transaction 1 scenario.creation run.fresh))
  = submitted
      (create_thread (accepted_transaction 1 scenario.creation run.fresh))
  ∧ pc (create_thread (accepted_transaction 1 scenario.creation run.fresh))
    = created.
Proof.
  split; [|reflexivity].
  apply (startup_processes_inline (H := sample.codec)
           (create_thread
              (accepted_transaction 1 scenario.creation run.fresh)));
    [|vm_compute; reflexivity].
  exists run.fresh. split; [apply fresh_initial|].
  submitted_at 1 scenario.creation.
  apply rtc_once. apply step_create_thread; vm_compute; reflexivity.
Defined.

Lemma consumer_order_witness :
  processed run.interleaved
    ++ transaction_metadata_process_queue (my run.interleaved)
    ++ transaction_metadata_queue (my run.interleaved)
  = [scenario.creation; scenario.greetings; scenario.creation]
  ∧ processed run.interleaved `prefix_of` submitted run.interleaved.
Proof.
  destruct (consumer_order (H := sample.codec) run.interleaved)
    as (Hall & Hpre & _).
  { exists run.fresh. split; [apply fresh_initial|apply interleaved_steps]. }
  split; [exact Hall|exact Hpre].
Defined.

Lemma signal_before_wait_is_missed_witness :
  pc (run_consumer (λ _, 5) 8
        (plugin_shutdown (set_pc entering_wait run.started))) = missed
  ∧ log (run_consumer (λ _, 5) 8
           (plugin_shutdown (set_pc entering_wait run.started)))
    = [ilog_shutdown_in_process].
Proof.
  destruct (signal_before_wait_is_missed (H := sample.codec) (λ _, 5) 8
              (set_pc entering_wait run.started))
    as (_ & Hat & _ & _ & _ & Hl).
  { exists run.fresh. split; [apply fresh_initial|].
    etrans; [apply started_steps|].
    apply rtc_once. apply step_preempted; vm_compute; reflexivity. }
  { vm_compute. reflexivity. }
  { vm_compute. reflexivity. }
  { vm_compute. reflexivity. }
  { lia. }
  split; [exact Hat|exact Hl].
Defined.

Lemma consumer_exits_only_when_done_witness :
  pc cases.stopped = exited ∧ done (my cases.stopped) = true.
Proof.
  split; [reflexivity|].
  apply (consumer_exits_only_when_done (H := sample.codec) cases.stopped);
    [|reflexivity].
  exists run.fresh. split; [apply fresh_initial|apply stopped_steps].
Defined.

Lemma store_is_sequential_witness :
  ∃ times,
    length times = length (processed run.interleaved)
    ∧ mongo_conn (my run.interleaved)
      = mongo_conn (process_all (zip times (processed run.interleaved))
                      (my run.fresh)).
Proof.
  apply (store_is_sequential (H := sample.codec) run.fresh run.interleaved
           fresh_initial interleaved_steps).
Defined.


Section consumer_in_operation.
Context `{Collaborators}.

(** X25. Without a shutdown signal the waiting consumer, left to run, takes
    the whole queue as one batch, processes its events in order and waits
    again: the queue and the batch are empty, the batch is logged only if
    its size is above three quarters of the target size, and the consumer
    is blocked until the next event or the signal. *)
Theorem consumer_drains_and_waits clock fuel s :
  pc s = at_wait →
  done (my s) = false →
  (length (transaction_metadata_queue (my s)) + 3 ≤ fuel)%nat →
  pc (run_consumer clock fuel s) = at_wait
  ∧ processed (run_consumer clock fuel s)
    = processed s ++ transaction_metadata_queue (my s)
  ∧ transaction_metadata_queue (my (run_consumer clock fuel s)) = []
  ∧ (transaction_metadata_queue (my s) ≠ [] →
     transaction_metadata_process_queue (my (run_consumer clock fuel s)) = [])
  ∧ log (run_consumer clock fuel s)
    = log s ++ batch_log (length (transaction_metadata_queue (my s)))
                 (queue_size (my s)) false
  ∧ ∀ now, consumer_step now (run_consumer clock fuel s) = None.
Proof.
  destruct s as [p at_ lg pr sb rl]. simpl. intros -> Hd Hfuel.
  destruct (transaction_metadata_queue p) as [|t q] eqn:Hq.
  - assert (Hblocked : ∀ now,
              consumer_step now {| my := p; pc := at_wait; log := lg;
                                   processed := pr; submitted := sb;
                                   my_reset := rl |} = None).
    { intros now. unfold consumer_step. simpl. by rewrite Hq, Hd. }
    rewrite run_consumer_blocked by done. simpl.
    rewrite Hq, !app_nil_r. repeat split; try done.
    unfold batch_log, above_three_quarters.
    rewrite bool_decide_eq_false_2 by lia. by rewrite app_nil_r.
  - replace fuel with (S (S (length (t :: q) + S (fuel - length (t :: q) - 3))))
      by (simpl in *; lia).
    erewrite run_consumer_step by (by apply consumer_step_capture).
    erewrite run_consumer_step by apply consumer_step_log.
    rewrite run_consumer_drain by done.
    set (p1 := drain clock (length pr) (t :: q) (set_queues [] (t :: q) p)).
    destruct (drain_fields clock (length pr) (t :: q)
                (set_queues [] (t :: q) p)) as (Hq1 & Hpq1 & Hd1 & _ & Hs1).
    fold p1 in Hq1, Hpq1, Hd1, Hs1. simpl in Hq1, Hd1, Hs1.
    specialize (Hpq1 eq_refl).
    erewrite run_consumer_step by (by apply consumer_step_again).
    assert (Hblocked : ∀ now,
              consumer_step now {| my := p1; pc := at_wait;
                                   log := lg ++ batch_log (S (length q))
                                                  (queue_size p) (done p);
                                   processed := pr ++ t :: q;
                                   submitted := sb; my_reset := rl |} = None).
    { intros now. unfold consumer_step. simpl. by rewrite Hq1, Hd1, Hd. }
    rewrite run_consumer_blocked by done. simpl.
    rewrite Hd in Hblocked |- *. repeat split; done.
Qed.
End consumer_in_operation.

Lemma consumer_drains_and_waits_witness :
  processed (run_consumer (λ _, 5) 6
               (accepted_transaction 2 scenario.greetings run.started))
  = [scenario.creation; scenario.greetings]
  ∧ log (run_consumer (λ _, 5) 6
           (accepted_transaction 2 scenario.greetings run.started))
    = [wlog_queue_size 1].
Proof.
  destruct (consumer_drains_and_waits (H := sample.codec) (λ _, 5) 6
              (accepted_transaction 2 scenario.greetings run.started)
              eq_refl eq_refl) as (_ & Hp & _ & _ & Hl & _).
  { vm_compute. lia. }
  split; [exact Hp|exact Hl].
Defined.
